(** * mirror-mirror-backend: the two in-memory caches of the affirmation endpoint

    The endpoint keeps two process-wide maps: [bucket], the fixed-window
    rate limiter consulted by [rateLimitOk], and [OPENER_HISTORY], the
    per-(client, mode) recency list consulted by [pickNonRepeatingOpener].
    Both functions read the clock ([Date.now()]); the second one also draws
    from [Math.random()].

    Conventions of the embedding.
    - A JavaScript [number] that holds a count, a limit or a millisecond
      timestamp is a mathematical integer ([Z]); none of them comes near
      2^53, where doubles stop being exact.
    - [Date.now()] is an explicit argument [now] of each call.
    - A [Map<string, _>] is a [gmap string _].
    - [Math.random()] is an oracle [random : nat -> Q]: the n-th call of the
      process returns [random n]; the number of calls made so far is part of
      the state. A double is the rational it denotes, and the product
      [Math.random() * bank.length] is rounded the way IEEE 754 binary64
      multiplication rounds it (to nearest, ties to even).
    - Reading an array cell yields [option string], [None] standing for
      [undefined]. *)

From Stdlib Require Import ZArith QArith Lia.
From Stdlib Require SpecFloat.
From stdpp Require Import base gmap strings list fin_maps.

Close Scope Q_scope.
Local Open Scope Z_scope.

(** ** Rate limiter *)

Module RateLimit.

(** The value type of [bucket]: [{ count: number; resetAt: number }]. *)
Record entry := Entry { count : Z; resetAt : Z }.

(** What [rateLimitOk] returns: [{ ok, remaining }]. *)
Record verdict := Verdict { ok : bool; remaining : Z }.

(** [rateLimitOk] of [api/affirmation.ts]: the map goes in and comes out;
    [cur.count += 1; bucket.set(key, cur)] rewrites the entry of [key]. *)
Definition rateLimitOk (key : string) (limit windowMs : Z) (now : Z)
    (bucket : gmap string entry) : verdict * gmap string entry :=
  let reset :=
    (Verdict true (limit - 1), <[key := Entry 1 (now + windowMs)]> bucket) in
  match bucket !! key with
  | None => reset
  | Some cur =>
      if now >? resetAt cur then reset
      else if count cur >=? limit then (Verdict false 0, bucket)
      else
        let cur' := Entry (count cur + 1) (resetAt cur) in
        (Verdict true (limit - count cur'), <[key := cur']> bucket)
  end.

(** One request reaching the limiter. *)
Record call := Call { c_key : string; c_limit : Z; c_windowMs : Z; c_now : Z }.

(** Successive calls, threading the map; the verdicts in call order. *)
Fixpoint run (cs : list call) (bucket : gmap string entry)
    : list verdict * gmap string entry :=
  match cs with
  | [] => ([], bucket)
  | c :: cs' =>
      let '(v, b1) := rateLimitOk (c_key c) (c_limit c) (c_windowMs c) (c_now c) bucket in
      let '(vs, b2) := run cs' b1 in
      (v :: vs, b2)
  end.

(** Calls that share key, limit and window and differ in their instant. *)
Definition same_key_calls (key : string) (limit windowMs : Z) (times : list Z)
    : list call :=
  map (Call key limit windowMs) times.

End RateLimit.

(** ** Double-precision products *)

Module Binary64.

(** A finite double: [mantissa * 2 ^ exponent]. *)
Record double := Double { mantissa : Z; exponent : Z }.

(** [2 ^ e] for an exponent of either sign. *)
Definition pow2 (e : Z) : Q :=
  if 0 <=? e then inject_Z (2 ^ e) else (1 # Z.to_pos (2 ^ (- e)))%Q.

Definition value (x : double) : Q :=
  (inject_Z (mantissa x) * pow2 (exponent x))%Q.

(** The rationals that are doubles: 53 bits of mantissa, exponents of the
    binary64 format, subnormals included. *)
Definition binary64 (q : Q) : Prop :=
  ∃ m e : Z, Z.abs m < 2 ^ 53 ∧ -1074 ≤ e ≤ 971 ∧ (q == value (Double m e))%Q.

(** What [Math.random()] may return: a double in [0, 1). *)
Definition unit_double (q : Q) : Prop :=
  binary64 q ∧ (0 <= q)%Q ∧ (q < 1)%Q.

(** The fraction [n / d] divided by [2 ^ e], as numerator and denominator. *)
Definition scaled (n d e : Z) : Z * Z :=
  if 0 <=? e then (n, d * 2 ^ e) else (n * 2 ^ (- e), d).

(** The integer nearest to [n / d] ([d > 0]), the even one of two at equal
    distance. *)
Definition round_half_even (n d : Z) : Z :=
  let q := n / d in
  match 2 * (n mod d) ?= d with
  | Lt => q
  | Gt => q + 1
  | Eq => if Z.even q then q else q + 1
  end.

(** [floor (log2 (n / d))] for [n, d > 0]. *)
Definition floor_log2 (n d : Z) : Z :=
  let a := Z.log2 n - Z.log2 d in
  let nd := scaled n d a in
  if nd.2 <=? nd.1 then a else a - 1.

(** Round to nearest, ties to even, of a positive [n / d]: 53 significant
    bits, and steps of [2 ^ -1074] below [2 ^ -1022]. *)
Definition round_positive (n d : Z) : double :=
  let e := Z.max (floor_log2 n d) (-1022) - 52 in
  let nd := scaled n d e in
  Double (round_half_even nd.1 nd.2) e.

(** The double nearest to [n / d] ([d > 0]). *)
Definition round (n d : Z) : double :=
  match n ?= 0 with
  | Eq => Double 0 0
  | Gt => round_positive n d
  | Lt => let x := round_positive (- n) d in
          Double (- mantissa x) (exponent x)
  end.

(** The product [x * y] of a double [x] and an integer [y] that is exact as
    a double, as an array length (below [2 ^ 32]) is: the exact product,
    rounded. A sample below 1 times an array length stays far inside the
    range of finite doubles, so no overflow to [Infinity] is modelled. *)
Definition multiply (x : Q) (y : Z) : double :=
  round (Qnum x * y) (Zpos (Qden x)).

(** [Math.floor] *)
Definition floor (x : double) : Z := Z.shiftl (mantissa x) (exponent x).

End Binary64.

(** ** Opener rotator *)

Module Opener.

(** [type DayMode = "morning" | "afternoon" | "evening" | "bedtime"]. *)
Inductive DayMode := morning | afternoon | evening | bedtime.

Definition mode_string (m : DayMode) : string :=
  match m with
  | morning => "morning"
  | afternoon => "afternoon"
  | evening => "evening"
  | bedtime => "bedtime"
  end.

(** The value type of [OPENER_HISTORY]: [{ items: string[]; resetAt: number }],
    most recent item first. *)
Record history := History { items : list (option string); resetAt : Z }.

(** The mutable world of the rotator: the map and the number of
    [Math.random()] calls made so far. *)
Record world := World { OPENER_HISTORY : gmap string history; drawn : nat }.

(** A call either returns or dies on a [TypeError] (a property read on
    [undefined]). *)
Inductive outcome (A : Type) :=
  | Returns (a : A)
  | TypeError.
Arguments Returns {A} a.
Arguments TypeError {A}.

(** [24 * 60 * 60 * 1000] *)
Definition DAY_MS : Z := 24 * 60 * 60 * 1000.

(** The number of passes of [for (let i = 0; i < 12; i++)]. *)
Definition ATTEMPTS : nat := 12.

(** The default [keepLast = 20] of the signature. *)
Definition keepLast_default : Z := 20.

(** [`${ip}:${mode}`] *)
Definition history_key (ip : string) (mode : DayMode) : string :=
  ip +:+ ":" +:+ mode_string mode.

(** [Math.floor(r * bank.length)] for the sample [r]: the floor of the
    double product, not of the exact one. *)
Definition random_index (r : Q) (len : nat) : Z :=
  Binary64.floor (Binary64.multiply r (Z.of_nat len)).

(** [bank[i]]: [undefined] outside the array. *)
Definition cell (bank : list string) (i : Z) : option string :=
  if i <? 0 then None else bank !! Z.to_nat i.

(** [xs.slice(0, e)]: a negative [e] counts from the end. *)
Definition slice0 {A : Type} (xs : list A) (e : Z) : list A :=
  if e <? 0 then take (Z.to_nat (Z.max (Z.of_nat (length xs) + e) 0)) xs
  else take (Z.to_nat e) xs.

Section WithRandom.

(** The samples [Math.random()] returns, in call order. *)
Variable random : nat -> Q.

(** [bank[Math.floor(Math.random() * bank.length)]] as the [n]-th draw. *)
Definition draw (bank : list string) (n : nat) : option string :=
  cell bank (random_index (random n) (length bank)).

(** [state.items.unshift(x); state.items = state.items.slice(0, keepLast);
    OPENER_HISTORY.set(key, state); return x]. *)
Definition accept (key : string) (keepLast : Z) (state : history)
    (x : option string) (w : world) : option string * world :=
  let state' := History (slice0 (x :: items state) keepLast) (resetAt state) in
  (x, World (<[key := state']> (OPENER_HISTORY w)) (drawn w)).

(** The retry loop with [n] passes left, followed by the fallback draw. *)
Fixpoint attempts (n : nat) (key : string) (bank : list string) (keepLast : Z)
    (state : history) (w : world) : option string * world :=
  match n with
  | O =>
      let fallback := draw bank (drawn w) in
      accept key keepLast state fallback (World (OPENER_HISTORY w) (S (drawn w)))
  | S n' =>
      let candidate := draw bank (drawn w) in
      let w1 := World (OPENER_HISTORY w) (S (drawn w)) in
      if bool_decide (candidate ∈ items state) then
        attempts n' key bank keepLast state w1
      else accept key keepLast state candidate w1
  end.

(** The guard [!cur || now > cur.resetAt]. *)
Definition expired (cur : option history) (now : Z) : bool :=
  match cur with
  | None => true
  | Some c => now >? resetAt c
  end.

(** The entry under the key once the guard has run: a new one when the
    guard fired, the stored one otherwise. *)
Definition state_in_effect (cur : option history) (now : Z) : history :=
  match cur with
  | None => History [] (now + DAY_MS)
  | Some c => if now >? resetAt c then History [] (now + DAY_MS) else c
  end.

(** [pickNonRepeatingOpener]: the guard, the read-back
    [OPENER_HISTORY.get(key)!], whose [.items] throws on [undefined], then
    the loop. *)
Definition pickNonRepeatingOpener (mode : DayMode) (ip : string)
    (bank : list string) (keepLast : Z) (now : Z) (w : world)
    : outcome (option string * world) :=
  let key := history_key ip mode in
  let cur := OPENER_HISTORY w !! key in
  let h1 :=
    if expired cur now then <[key := History [] (now + DAY_MS)]> (OPENER_HISTORY w)
    else OPENER_HISTORY w in
  match h1 !! key with
  | None => TypeError
  | Some state => Returns (attempts ATTEMPTS key bank keepLast state (World h1 (drawn w)))
  end.

(** Successive calls for one (client, mode) with one bank and cap, at the
    given instants. Each returned item is recorded with the number of
    samples drawn before its call. *)
Fixpoint picks (mode : DayMode) (ip : string) (bank : list string)
    (keepLast : Z) (times : list Z) (w : world)
    : outcome (list (nat * option string) * world) :=
  match times with
  | [] => Returns ([], w)
  | now :: times' =>
      match pickNonRepeatingOpener mode ip bank keepLast now w with
      | TypeError => TypeError
      | Returns (x, w1) =>
          match picks mode ip bank keepLast times' w1 with
          | TypeError => TypeError
          | Returns (xs, w2) => Returns ((drawn w, x) :: xs, w2)
          end
      end
  end.

End WithRandom.

(** Sample sources for deterministic runs. *)

(** Twelve samples that select the first cell, then samples that select the
    middle of the array. *)
Definition twelve_low (n : nat) : Q :=
  if (n <? 12)%nat then 0%Q else (1 # 2)%Q.

(** A source that selects the second cell of three on its second draw and
    the first cell otherwise. *)
Definition second_then_first (n : nat) : Q :=
  if (n =? 1)%nat then (1 # 2)%Q else 0%Q.

(** A source stuck on one sample. *)
Definition constant_source (r : Q) (n : nat) : Q := r.

End Opener.

(** ** Request normalisation and admission *)

Module Request.

Import RateLimit Opener.
Import Stdlib.Strings.Ascii.

(** A JavaScript string of a request body is a sequence of UTF-16 code
    units. *)
Definition units (s : string) : list N :=
  Ascii.N_of_ascii <$> String.list_ascii_of_string s.

(** A value of static type [unknown], as a parsed body field can be. A
    finite number is a rational. *)
Inductive unknown :=
  | JsUndefined
  | JsNull
  | JsBoolean (b : bool)
  | JsNumber (q : Q)
  | JsString (s : list N)
  | JsObject.

(** ECMAScript [WhiteSpace] and [LineTerminator] code points, the ones
    [String.prototype.trim] strips; all of them are single code units. *)
Definition is_white_space (u : N) : bool :=
  ((9 <=? u) && (u <=? 13) || (u =? 32) || (u =? 160) || (u =? 5760)
   || (8192 <=? u) && (u <=? 8202) || (u =? 8232) || (u =? 8233)
   || (u =? 8239) || (u =? 8287) || (u =? 12288) || (u =? 65279))%N.

Fixpoint trimStart (s : list N) : list N :=
  match s with
  | [] => []
  | u :: s' => if is_white_space u then trimStart s' else s
  end.

Fixpoint trimEnd (s : list N) : list N :=
  match s with
  | [] => []
  | u :: s' =>
      match trimEnd s' with
      | [] => if is_white_space u then [] else [u]
      | t => u :: t
      end
  end.

(** [s.trim()] *)
Definition trim (s : list N) : list N := trimEnd (trimStart s).

(** [x === s] for a string literal [s]. *)
Definition strict_eq_literal (x : unknown) (s : string) : bool :=
  match x with
  | JsString u => bool_decide (u = units s)
  | _ => false
  end.

(** [typeof x === "string" ? x.trim() : ""] *)
Definition trimmed_or_empty (x : unknown) : list N :=
  match x with
  | JsString s => trim s
  | _ => []
  end.

(** [safeName], later version: [(n || "Friend").slice(0, 40)]. *)
Definition safeName (x : unknown) : list N :=
  let n := trimmed_or_empty x in
  slice0 (match n with [] => units "Friend" | _ => n end) 40.

(** [safeName], first version:
    [if (!n) return "Friend"; return n.slice(0, 40)]. *)
Definition safeName_first (x : unknown) : list N :=
  let n := trimmed_or_empty x in
  match n with
  | [] => units "Friend"
  | _ => slice0 n 40
  end.

(** [clampMode], the version with four modes. *)
Definition clampMode (x : unknown) : DayMode :=
  if strict_eq_literal x "morning" then morning
  else if strict_eq_literal x "afternoon" then afternoon
  else if strict_eq_literal x "evening" then evening
  else if strict_eq_literal x "bedtime" then bedtime
  else morning.

(** A value of [req.headers[name]]: [string | string[] | undefined]. Node
    decodes header bytes as Latin-1, so the characters of a header string
    are its code units. *)
Inductive header :=
  | NoHeader
  | OneValue (s : string)
  | ManyValues (l : list string).

(** [Array.isArray(h) ? h[0] : h] *)
Definition first_value (h : header) : option string :=
  match h with
  | NoHeader => None
  | OneValue s => Some s
  | ManyValues l => l !! 0%nat
  end.

(** [s.split(",")[0]] *)
Fixpoint before_comma (s : string) : string :=
  match s with
  | EmptyString => EmptyString
  | String c s' =>
      if Ascii.eqb c ","%char then EmptyString else String c (before_comma s')
  end.

Definition header_white_space (c : ascii) : bool :=
  is_white_space (Ascii.N_of_ascii c).

Fixpoint header_trimStart (s : string) : string :=
  match s with
  | EmptyString => EmptyString
  | String c s' => if header_white_space c then header_trimStart s' else s
  end.

Fixpoint header_trimEnd (s : string) : string :=
  match s with
  | EmptyString => EmptyString
  | String c s' =>
      match header_trimEnd s' with
      | EmptyString =>
          if header_white_space c then EmptyString else String c EmptyString
      | t => String c t
      end
  end.

(** [s.trim()] on a header string. *)
Definition header_trim (s : string) : string :=
  header_trimEnd (header_trimStart s).

(** [a || b] on strings that may be [undefined]: the empty string is
    falsy. *)
Definition or_else (a : option string) (b : option string) : option string :=
  match a with
  | Some EmptyString | None => b
  | Some s => Some s
  end.

(** The client key of the handler:
    [(Array.isArray(xf) ? xf[0] : xf)?.split(",")[0]?.trim()
     || (Array.isArray(xr) ? xr[0] : xr) || "unknown"]. *)
Definition client_ip (xf xr : header) : string :=
  let forwarded := (header_trim ∘ before_comma) <$> first_value xf in
  match or_else (or_else forwarded (first_value xr)) (Some "unknown") with
  | Some s => s
  | None => EmptyString
  end.

(** Truthiness of a [string | undefined]. *)
Definition truthy (a : option string) : bool :=
  match a with
  | Some EmptyString | None => false
  | Some _ => true
  end.

(** How the handler leaves its first stage: with a response of the given
    status, or on to reading the body with the client key and the quota
    left. *)
Inductive admission :=
  | Responds (status : Z)
  | Proceeds (ip : string) (left : Z).

(** The handler up to the rate-limit check: the [OPTIONS] and method
    tests, the API key test, the client key and [rateLimitOk(ip, 30,
    10 * 60 * 1000)]. [method] is [req.method], [apiKey] is
    [process.env.OPENAI_API_KEY]. *)
Definition handler_admission (method apiKey : option string) (xf xr : header)
    (now : Z) (bucket : gmap string entry) : admission * gmap string entry :=
  if bool_decide (method = Some "OPTIONS") then (Responds 200, bucket)
  else if negb (bool_decide (method = Some "POST")) then (Responds 405, bucket)
  else if negb (truthy apiKey) then (Responds 500, bucket)
  else
    let ip := client_ip xf xr in
    let rl := rateLimitOk ip 30 (10 * 60 * 1000) now bucket in
    if negb (ok rl.1) then (Responds 429, rl.2)
    else (Proceeds ip (remaining rl.1), rl.2).

(** What the first stage reads of a request, and when it arrives. *)
Record request := Request {
  r_method : option string;
  r_forwarded : header;
  r_real_ip : header;
  r_now : Z
}.

(** Requests handled one after the other by one process. *)
Fixpoint serve (apiKey : option string) (reqs : list request)
    (bucket : gmap string entry) : list admission * gmap string entry :=
  match reqs with
  | [] => ([], bucket)
  | q :: reqs' =>
      let a := handler_admission (r_method q) apiKey (r_forwarded q)
                 (r_real_ip q) (r_now q) bucket in
      let rest := serve apiKey reqs' a.2 in
      (a.1 :: rest.1, rest.2)
  end.

(** The limiter calls a list of requests gives rise to: one per [POST]. *)
Definition limiter_calls (reqs : list request) : list call :=
  (λ q, Call (client_ip (r_forwarded q) (r_real_ip q)) 30 (10 * 60 * 1000)
          (r_now q))
  <$> filter (λ q, r_method q = Some "POST") reqs.

(** How the handler answers a verdict of the limiter. *)
Definition admission_of (c : call) (v : verdict) : admission :=
  if ok v then Proceeds (c_key c) (remaining v) else Responds 429.

(** The admissions of the [POST] requests, in request order. *)
Definition post_admissions (reqs : list request) (adms : list admission)
    : list admission :=
  (filter (λ qa, r_method qa.1 = Some "POST") (zip reqs adms)).*2.

End Request.

(** ** Text of the history keys *)

Module Text.

Import Stdlib.Strings.Ascii.

(** Whether the string holds the separator of [`${ip}:${mode}`]. *)
Fixpoint has_colon (s : string) : bool :=
  match s with
  | EmptyString => false
  | String c s' => Ascii.eqb c ":"%char || has_colon s'
  end.

(** Whether the string holds the separator of an [x-forwarded-for] list. *)
Fixpoint has_comma (s : string) : bool :=
  match s with
  | EmptyString => false
  | String c s' => Ascii.eqb c ","%char || has_comma s'
  end.

End Text.

(** ** Measures on runs of the limiter *)

Module Traffic.

Import RateLimit.

(** How many of the verdicts let the request through. *)
Definition allowed (vs : list verdict) : nat :=
  length (filter (λ v, ok v = true) vs).

(** The verdicts of the calls made with key [k], in call order. *)
Definition verdicts_of (k : string) (cs : list call) (vs : list verdict)
    : list verdict :=
  (filter (λ cv, c_key cv.1 = k) (zip cs vs)).*2.

(** Every stored count lies between 1 and [L]. *)
Definition counts_within (L : Z) (bucket : gmap string entry) : Prop :=
  ∀ k e, bucket !! k = Some e → 1 ≤ count e ≤ L.

End Traffic.

(** * Properties of the rate limiter *)

Section RateLimitFacts.

Import RateLimit.

Implicit Types (key : string) (bucket : gmap string entry) (cur : entry).

(** A reset writes the same entry and verdict whatever was stored. *)
Lemma rateLimitOk_absent key limit windowMs now bucket :
  bucket !! key = None →
  rateLimitOk key limit windowMs now bucket
  = (Verdict true (limit - 1), <[key := Entry 1 (now + windowMs)]> bucket).
Proof. intros Hk. unfold rateLimitOk. by rewrite Hk. Qed.

Lemma rateLimitOk_expired key limit windowMs now bucket cur :
  bucket !! key = Some cur → resetAt cur < now →
  rateLimitOk key limit windowMs now bucket
  = (Verdict true (limit - 1), <[key := Entry 1 (now + windowMs)]> bucket).
Proof.
  intros Hk Hlt. unfold rateLimitOk. rewrite Hk.
  by replace (now >? resetAt cur) with true by lia.
Qed.

Lemma rateLimitOk_full key limit windowMs now bucket cur :
  bucket !! key = Some cur → now ≤ resetAt cur → limit ≤ count cur →
  rateLimitOk key limit windowMs now bucket = (Verdict false 0, bucket).
Proof.
  intros Hk Hle Hfull. unfold rateLimitOk. rewrite Hk.
  replace (now >? resetAt cur) with false by lia.
  by replace (count cur >=? limit) with true by lia.
Qed.

Lemma rateLimitOk_room key limit windowMs now bucket cur :
  bucket !! key = Some cur → now ≤ resetAt cur → count cur < limit →
  rateLimitOk key limit windowMs now bucket
  = (Verdict true (limit - (count cur + 1)),
     <[key := Entry (count cur + 1) (resetAt cur)]> bucket).
Proof.
  intros Hk Hle Hroom. unfold rateLimitOk. rewrite Hk.
  replace (now >? resetAt cur) with false by lia.
  by replace (count cur >=? limit) with false by lia.
Qed.

(** The map after a call differs from the map before at most at [key]. *)
Lemma rateLimitOk_frame key key' limit windowMs now bucket :
  key ≠ key' →
  (rateLimitOk key limit windowMs now bucket).2 !! key' = bucket !! key'.
Proof.
  intros Hne. unfold rateLimitOk.
  destruct (bucket !! key) as [cur|]; simpl;
    repeat case_match; simpl; by rewrite ?lookup_insert_ne.
Qed.

(** Verdict and new entry are functions of the entry stored under [key]. *)
Lemma rateLimitOk_local key limit windowMs now bucket bucket2 :
  bucket !! key = bucket2 !! key →
  (rateLimitOk key limit windowMs now bucket).1
  = (rateLimitOk key limit windowMs now bucket2).1
  ∧ (rateLimitOk key limit windowMs now bucket).2 !! key
    = (rateLimitOk key limit windowMs now bucket2).2 !! key.
Proof.
  intros Heq. unfold rateLimitOk. rewrite <- Heq.
  destruct (bucket !! key) as [cur|] eqn:Hk; simpl;
    repeat case_match; simpl; rewrite ?lookup_insert_eq; auto.
  by rewrite Hk, Heq.
Qed.

Lemma run_cons c cs bucket :
  run (c :: cs) bucket
  = let r := rateLimitOk (c_key c) (c_limit c) (c_windowMs c) (c_now c) bucket in
    (r.1 :: (run cs r.2).1, (run cs r.2).2).
Proof.
  cbn [run].
  destruct (rateLimitOk (c_key c) (c_limit c) (c_windowMs c) (c_now c) bucket)
    as [v b1].
  cbn [fst snd]. by destruct (run cs b1) as [vs b2].
Qed.

Lemma run_length cs bucket : length (run cs bucket).1 = length cs.
Proof.
  revert bucket. induction cs as [|c cs IH]; intros bucket; [done|].
  rewrite run_cons. simpl. by rewrite IH.
Qed.

Lemma run_frame key key' cs bucket :
  key ≠ key' → Forall (λ c, c_key c = key) cs →
  (run cs bucket).2 !! key' = bucket !! key'.
Proof.
  intros Hne Hall. revert bucket.
  induction Hall as [|c cs Hc _ IH]; intros bucket; [done|].
  rewrite run_cons. simpl. rewrite IH, Hc. by apply rateLimitOk_frame.
Qed.

Lemma run_local key cs bucket bucket2 :
  Forall (λ c, c_key c = key) cs →
  bucket !! key = bucket2 !! key →
  (run cs bucket).1 = (run cs bucket2).1
  ∧ (run cs bucket).2 !! key = (run cs bucket2).2 !! key.
Proof.
  intros Hall. revert bucket bucket2.
  induction Hall as [|c cs Hc _ IH]; intros bucket bucket2 Heq; [done|].
  rewrite !run_cons. simpl. rewrite Hc.
  destruct (rateLimitOk_local key (c_limit c) (c_windowMs c) (c_now c)
              bucket bucket2 Heq) as [Hv Hb].
  destruct (IH _ _ Hb) as [Hvs Hbs].
  split; [by rewrite Hv, Hvs | done].
Qed.

(** Inside an open window the verdict only depends on how many slots the
    window has already handed out. *)
Lemma run_in_window key limit windowMs times :
  ∀ bucket c r,
    bucket !! key = Some (Entry c r) →
    Forall (λ t, t ≤ r) times →
    ∀ (i : nat) v,
      (run (same_key_calls key limit windowMs times) bucket).1 !! i = Some v →
      v = if c + Z.of_nat i <? limit
          then Verdict true (limit - (c + Z.of_nat i + 1))
          else Verdict false 0.
Proof.
  induction times as [|t times IH]; intros bucket c r Hk Hall i v Hi.
  { by destruct i. }
  apply Forall_cons in Hall as [Ht Hall].
  unfold same_key_calls in Hi. simpl map in Hi. rewrite run_cons in Hi.
  simpl in Hi. fold (same_key_calls key limit windowMs times) in Hi.
  destruct (decide (c < limit)) as [Hroom|Hfull].
  - rewrite (rateLimitOk_room _ _ _ _ _ _ Hk) in Hi by (simpl; lia).
    simpl in Hi. destruct i as [|i]; simpl in Hi.
    + injection Hi as <-. destruct (Z.ltb_spec (c + Z.of_nat 0) limit); [|lia].
      do 2 f_equal. lia.
    + eapply IH in Hi; [|apply lookup_insert_eq|done]. subst v.
      by replace (c + 1 + Z.of_nat i) with (c + Z.of_nat (S i)) by lia.
  - rewrite (rateLimitOk_full _ _ _ _ _ _ Hk) in Hi by (simpl; lia).
    simpl in Hi. destruct i as [|i]; simpl in Hi.
    + injection Hi as <-. by destruct (Z.ltb_spec (c + Z.of_nat 0) limit); [lia|].
    + eapply IH in Hi; [|exact Hk|done]. subst v.
      destruct (Z.ltb_spec (c + Z.of_nat i) limit); [lia|].
      by destruct (Z.ltb_spec (c + Z.of_nat (S i)) limit); [lia|].
Qed.

(** Claim C1. Starting from a key the map does not hold, calls with that key,
    a limit [L > 0] and a window [w > 0], all made no later than the
    [resetAt] the first call stores, are allowed exactly [L] times: the
    i-th call (counting from 0) answers [ok = true] with
    [remaining = L - 1 - i] while [i < L], and [ok = false] with
    [remaining = 0] from then on. *)
Theorem rateLimitOk_window_sequence key (L w t1 : Z) (times : list Z) bucket :
  0 < L → 0 < w →
  bucket !! key = None →
  Forall (λ t, t ≤ t1 + w) times →
  let verdicts := (run (same_key_calls key L w (t1 :: times)) bucket).1 in
  length verdicts = S (length times)
  ∧ ∀ (i : nat) v,
      verdicts !! i = Some v →
      (Z.of_nat i < L → v = Verdict true (L - 1 - Z.of_nat i))
      ∧ (L ≤ Z.of_nat i → v = Verdict false 0).
Proof.
  intros HL Hw Hk Hall verdicts. subst verdicts. split.
  { rewrite run_length. unfold same_key_calls. by rewrite length_map. }
  intros i v Hi.
  unfold same_key_calls in Hi. simpl map in Hi. rewrite run_cons in Hi.
  simpl in Hi. fold (same_key_calls key L w times) in Hi.
  rewrite (rateLimitOk_absent _ _ _ _ _ Hk) in Hi. simpl in Hi.
  destruct i as [|i]; simpl in Hi.
  - injection Hi as <-. split; intros; [f_equal; lia | lia].
  - eapply run_in_window in Hi; [|apply lookup_insert_eq|done].
    subst v. destruct (Z.ltb_spec (1 + Z.of_nat i) L); split; intros Hcmp;
      try lia; [f_equal; lia | done].
Qed.

(** The scenario of claim C1: limit 3, a ten-minute window, four calls at
    one instant. *)
Lemma rateLimitOk_window_sequence_witness :
  let verdicts :=
    (run (same_key_calls "203.0.113.7" 3 600000 [1000; 1000; 1000; 1000]) ∅).1 in
  length verdicts = 4%nat
  ∧ ∀ (i : nat) v,
      verdicts !! i = Some v →
      (Z.of_nat i < 3 → v = Verdict true (3 - 1 - Z.of_nat i))
      ∧ (3 ≤ Z.of_nat i → v = Verdict false 0).
Proof.
  apply (rateLimitOk_window_sequence "203.0.113.7" 3 600000 1000
           [1000; 1000; 1000] ∅); [lia | lia | reflexivity |].
  repeat constructor; lia.
Defined.

Example four_calls_limit_three :
  (run (same_key_calls "203.0.113.7" 3 600000 [1000; 1000; 1000; 1000]) ∅).1
  = [Verdict true 2; Verdict true 1; Verdict true 0; Verdict false 0].
Proof. vm_compute. reflexivity. Qed.

(** Claim C4. A call for a key whose unexpired entry has [count >= limit]
    answers [ok = false], [remaining = 0] and returns the very map it was
    given, so no entry of any key changes. *)
Theorem rateLimitOk_denied_keeps_bucket key limit windowMs now bucket cur :
  bucket !! key = Some cur →
  now ≤ resetAt cur →
  count cur >= limit →
  rateLimitOk key limit windowMs now bucket = (Verdict false 0, bucket).
Proof. intros Hk Hle Hfull. apply (rateLimitOk_full _ _ _ _ _ _ Hk); lia. Qed.

Lemma rateLimitOk_denied_keeps_bucket_witness :
  rateLimitOk "10.0.0.1" 30 600000 5000 {[ "10.0.0.1" := Entry 30 9000 ]}
  = (Verdict false 0, {[ "10.0.0.1" := Entry 30 9000 ]}).
Proof.
  apply (rateLimitOk_denied_keeps_bucket "10.0.0.1" 30 600000 5000
           {[ "10.0.0.1" := Entry 30 9000 ]} (Entry 30 9000));
    [reflexivity | simpl; lia | simpl; lia].
Defined.

(** The two ways a call opens a window. *)
Lemma rateLimitOk_reset key limit windowMs now bucket :
  (bucket !! key = None
   ∨ ∃ cur, bucket !! key = Some cur ∧ now > resetAt cur) →
  rateLimitOk key limit windowMs now bucket
  = (Verdict true (limit - 1), <[key := Entry 1 (now + windowMs)]> bucket).
Proof.
  intros [Hk | (cur & Hk & Hgt)].
  - by apply rateLimitOk_absent.
  - apply (rateLimitOk_expired _ _ _ _ _ _ Hk). lia.
Qed.

(** Claim C5. With no entry for the key, or with [now] strictly after the
    stored [resetAt], the call stores [count = 1],
    [resetAt = now + windowMs] under the key and answers [ok = true],
    [remaining = limit - 1]; verdict and map are those of the same call on
    a map that never held the key. *)
Theorem rateLimitOk_opens_window key limit windowMs now bucket :
  (bucket !! key = None
   ∨ ∃ cur, bucket !! key = Some cur ∧ now > resetAt cur) →
  rateLimitOk key limit windowMs now bucket
  = (Verdict true (limit - 1), <[key := Entry 1 (now + windowMs)]> bucket)
  ∧ rateLimitOk key limit windowMs now bucket
    = rateLimitOk key limit windowMs now (delete key bucket).
Proof.
  intros Hopen. rewrite (rateLimitOk_reset _ _ _ _ _ Hopen).
  split; [done|].
  rewrite rateLimitOk_absent by apply lookup_delete_eq.
  by rewrite insert_delete_eq.
Qed.

Lemma rateLimitOk_opens_window_witness :
  rateLimitOk "10.0.0.1" 30 600000 9001 {[ "10.0.0.1" := Entry 30 9000 ]}
  = (Verdict true (30 - 1),
     <["10.0.0.1" := Entry 1 (9001 + 600000)]> {[ "10.0.0.1" := Entry 30 9000 ]})
  ∧ rateLimitOk "10.0.0.1" 30 600000 9001 {[ "10.0.0.1" := Entry 30 9000 ]}
    = rateLimitOk "10.0.0.1" 30 600000 9001
        (delete "10.0.0.1" {[ "10.0.0.1" := Entry 30 9000 ]}).
Proof.
  apply (rateLimitOk_opens_window "10.0.0.1" 30 600000 9001
           {[ "10.0.0.1" := Entry 30 9000 ]}).
  right. exists (Entry 30 9000). split; [reflexivity | simpl; lia].
Defined.

(** Claim C6. Calls with key [k] leave the entry of every other key [k'] as
    it was, their verdicts do not depend on what the map holds under other
    keys, and the verdicts of later calls with [k'] are the same whether or
    not the calls with [k] were made. *)
Theorem rateLimitOk_keys_independent (k k' : string) (cs cs' : list call) bucket :
  k ≠ k' →
  Forall (λ c, c_key c = k) cs →
  Forall (λ c, c_key c = k') cs' →
  (run cs bucket).2 !! k' = bucket !! k'
  ∧ (∀ bucket2, bucket2 !! k = bucket !! k → (run cs bucket2).1 = (run cs bucket).1)
  ∧ (run cs' (run cs bucket).2).1 = (run cs' bucket).1
  ∧ (run cs' (run cs bucket).2).2 !! k' = (run cs' bucket).2 !! k'.
Proof.
  intros Hne Hk Hk'.
  assert ((run cs bucket).2 !! k' = bucket !! k') as Hframe
    by by apply (run_frame k).
  split; [done|]. split.
  - intros bucket2 Heq. by apply (run_local k).
  - by apply (run_local k').
Qed.

Lemma rateLimitOk_keys_independent_witness :
  let cs := same_key_calls "a" 2 1000 [0; 1; 2] in
  let cs' := same_key_calls "b" 2 1000 [3; 4] in
  (run cs ∅).2 !! "b" = (∅ : gmap string entry) !! "b"
  ∧ (∀ bucket2, bucket2 !! "a" = (∅ : gmap string entry) !! "a" →
       (run cs bucket2).1 = (run cs ∅).1)
  ∧ (run cs' (run cs ∅).2).1 = (run cs' ∅).1
  ∧ (run cs' (run cs ∅).2).2 !! "b" = (run cs' ∅).2 !! "b".
Proof.
  apply (rateLimitOk_keys_independent "a" "b"
           (same_key_calls "a" 2 1000 [0; 1; 2])
           (same_key_calls "b" 2 1000 [3; 4]) ∅);
    [discriminate | repeat constructor | repeat constructor].
Defined.

Example exhausting_a_leaves_b :
  (run (same_key_calls "a" 2 1000 [0; 1; 2] ++ same_key_calls "b" 2 1000 [3; 4]) ∅).1
  = [Verdict true 1; Verdict true 0; Verdict false 0;
     Verdict true 1; Verdict true 0].
Proof. vm_compute. reflexivity. Qed.

(** Claim C10. The call that opens a window (no entry, or [now] after the
    stored [resetAt]) answers [ok = true] with [remaining = limit - 1] for
    every [limit], zero and negative ones included, where [remaining] is
    then negative; the limit is first compared on the second call of the
    window, which is refused exactly when [limit <= 1]. *)
Theorem rateLimitOk_first_call_ignores_limit key limit windowMs now bucket :
  (bucket !! key = None
   ∨ ∃ cur, bucket !! key = Some cur ∧ now > resetAt cur) →
  let first := rateLimitOk key limit windowMs now bucket in
  first.1 = Verdict true (limit - 1)
  ∧ (limit ≤ 0 → remaining first.1 < 0)
  ∧ ∀ now2, now2 ≤ now + windowMs →
      (rateLimitOk key limit windowMs now2 first.2).1
      = if 1 >=? limit then Verdict false 0 else Verdict true (limit - 2).
Proof.
  intros Hopen first. subst first.
  rewrite (rateLimitOk_reset _ _ _ _ _ Hopen).
  simpl. split; [done|]. split; [lia|].
  intros now2 Hnow2.
  destruct (Z.geb_spec 1 limit) as [Hfull|Hroom].
  - erewrite rateLimitOk_full; [done|apply lookup_insert_eq|simpl; lia..].
  - erewrite rateLimitOk_room; [|apply lookup_insert_eq|simpl; lia..].
    simpl. f_equal; lia.
Qed.

Lemma rateLimitOk_first_call_ignores_limit_witness :
  let first := rateLimitOk "10.0.0.1" (-5) 600000 1000 ∅ in
  first.1 = Verdict true (-5 - 1)
  ∧ (-5 ≤ 0 → remaining first.1 < 0)
  ∧ ∀ now2, now2 ≤ 1000 + 600000 →
      (rateLimitOk "10.0.0.1" (-5) 600000 now2 first.2).1
      = if 1 >=? -5 then Verdict false 0 else Verdict true (-5 - 2).
Proof.
  apply (rateLimitOk_first_call_ignores_limit "10.0.0.1" (-5) 600000 1000 ∅).
  left. reflexivity.
Defined.

Example zero_limit_still_allows_one :
  (run (same_key_calls "10.0.0.1" 0 600000 [1000; 1000]) ∅).1
  = [Verdict true (-1); Verdict false 0].
Proof. vm_compute. reflexivity. Qed.

End RateLimitFacts.

(** * Properties of the double-precision product *)

Section Binary64Facts.

Import Binary64.

Lemma round_half_even_bounds (n d : Z) :
  0 ≤ n → 0 < d →
  0 ≤ round_half_even n d ∧ 2 * d * round_half_even n d ≤ 2 * n + d.
Proof.
  intros Hn Hd. unfold round_half_even.
  pose proof (Z.div_mod n d ltac:(lia)) as Hdiv.
  pose proof (Z.mod_pos_bound n d Hd) as Hmod.
  pose proof (Z.div_pos n d Hn Hd) as Hq.
  destruct (Z.compare_spec (2 * (n mod d)) d) as [Heq|Hlt|Hgt];
    [destruct (Z.even (n / d))|..]; split; nia.
Qed.

(** [2 ^ floor_log2 n d <= n / d]. *)
Lemma floor_log2_below (n d : Z) :
  0 < n → 0 < d →
  (0 ≤ floor_log2 n d → d * 2 ^ floor_log2 n d ≤ n)
  ∧ (floor_log2 n d < 0 → d ≤ n * 2 ^ (- floor_log2 n d)).
Proof.
  intros Hn Hd. unfold floor_log2, scaled.
  destruct (Z.log2_spec n Hn) as [Hn1 _].
  destruct (Z.log2_spec d Hd) as [_ Hd2].
  pose proof (Z.log2_nonneg n) as Hp. pose proof (Z.log2_nonneg d) as Hq.
  set (p := Z.log2 n) in *. set (q := Z.log2 d) in *. clearbody p q.
  assert ((0 ≤ p - q - 1 → d * 2 ^ (p - q - 1) ≤ n)
          ∧ (p - q - 1 < 0 → d ≤ n * 2 ^ (- (p - q - 1)))) as Hlow.
  { split; intros Hl.
    - assert (2 ^ p = 2 ^ Z.succ q * 2 ^ (p - q - 1)) as Hsplit
        by (rewrite <- Z.pow_add_r by lia; f_equal; lia).
      assert (0 < 2 ^ (p - q - 1)) by (apply Z.pow_pos_nonneg; lia).
      nia.
    - assert (2 ^ Z.succ q = 2 ^ p * 2 ^ (- (p - q - 1))) as Hsplit
        by (rewrite <- Z.pow_add_r by lia; f_equal; lia).
      assert (0 < 2 ^ (- (p - q - 1))) by (apply Z.pow_pos_nonneg; lia).
      nia. }
  destruct (Z.leb_spec 0 (p - q)) as [Ha|Ha]; cbn [fst snd].
  - destruct (Z.leb_spec (d * 2 ^ (p - q)) n) as [Hle|Hgt]; cbn iota;
      [split; intros; (assumption || lia) | exact Hlow].
  - destruct (Z.leb_spec d (n * 2 ^ (- (p - q)))) as [Hle|Hgt]; cbn iota;
      [split; intros; (assumption || lia) | exact Hlow].
Qed.

(** A positive fraction at most [len * (1 - 2 ^ -53)] does not round up to
    the integer [len]. *)
Lemma floor_round_positive_range (n d len : Z) :
  0 < n → 0 < d → 0 < len →
  n * 2 ^ 53 ≤ d * len * (2 ^ 53 - 1) →
  0 ≤ floor (round_positive n d) < len.
Proof.
  intros Hn Hd Hlen Hbelow. unfold round_positive, floor.
  cbn [mantissa exponent].
  destruct (floor_log2_below n d Hn Hd) as [Hl0 Hl1].
  set (l := floor_log2 n d) in *. clearbody l.
  set (e := Z.max l (-1022) - 52).
  assert (e = Z.max l (-1022) - 52) as He_def by reflexivity. clearbody e.
  assert (2 ^ 53 = 2 * 2 ^ 52) as HP by reflexivity.
  assert (0 < 2 ^ 52) as HH by reflexivity.
  unfold scaled. destruct (Z.leb_spec 0 e) as [He|He]; cbn [fst snd].
  - (* the unit in the last place is an integer *)
    assert (l = e + 52) as Hl by lia. subst l.
    assert (0 < 2 ^ e) as HE by (apply Z.pow_pos_nonneg; lia).
    specialize (Hl0 ltac:(lia)). rewrite Z.pow_add_r in Hl0 by lia.
    rewrite Z.shiftl_mul_pow2 by lia.
    set (E := 2 ^ e) in *. clearbody E.
    destruct (round_half_even_bounds n (d * E)) as [Hm0 Hm1]; [lia | nia |].
    set (m := round_half_even n (d * E)) in *. clearbody m.
    set (P := 2 ^ 53) in *. set (H := 2 ^ 52) in *. clearbody P H.
    split; [nia|].
    assert (0 < P) as HP0 by lia.
    assert (0 < d * len) as Hdl by nia.
    assert (P * (d * (m * E)) ≤ n * (P + 1)) as Hstep by nia.
    assert (P * (P * (d * (m * E))) ≤ (P + 1) * (n * P)) as Hstep2 by nia.
    assert ((P + 1) * (n * P) ≤ (P + 1) * (d * len * (P - 1))) as Hstep3
      by (apply Z.mul_le_mono_nonneg_l; lia).
    assert ((P * P * d) * (m * E) < (P * P * d) * len) as Hfin by nia.
    apply (Z.mul_lt_mono_pos_l (P * P * d)); [nia | exact Hfin].
  - (* the unit in the last place is a fraction *)
    assert (0 < 2 ^ (- e)) as HK by (apply Z.pow_pos_nonneg; lia).
    destruct (round_half_even_bounds (n * 2 ^ (- e)) d) as [Hm0 Hm1];
      [nia | lia |].
    set (m := round_half_even (n * 2 ^ (- e)) d) in *. clearbody m.
    rewrite Z.shiftl_div_pow2 by lia.
    split; [apply Z.div_pos; lia|].
    apply Z.div_lt_upper_bound; [lia|].
    destruct (Z.le_gt_cases (-1022) l) as [Hnorm|Hsub].
    + (* normal range: [d * 2 ^ 52 <= n * 2 ^ (- e)] *)
      assert (d * 2 ^ 52 ≤ n * 2 ^ (- e)) as Hulp.
      { destruct (Z.le_gt_cases 0 l) as [Hlpos|Hlneg].
        - specialize (Hl0 Hlpos).
          assert (2 ^ 52 = 2 ^ l * 2 ^ (- e)) as ->
            by (rewrite <- Z.pow_add_r by lia; f_equal; lia).
          assert (0 < 2 ^ l) by (apply Z.pow_pos_nonneg; lia). nia.
        - specialize (Hl1 Hlneg).
          assert (2 ^ (- e) = 2 ^ (- l) * 2 ^ 52) as ->
            by (rewrite <- Z.pow_add_r by lia; f_equal; lia).
          nia. }
      set (k := 2 ^ (- e)) in *. clearbody k.
      set (P := 2 ^ 53) in *. set (H := 2 ^ 52) in *. clearbody P H.
      assert (0 < P) as HP0 by lia.
      assert (0 < d * len) as Hdl by nia.
      assert (P * (d * m) ≤ (P + 1) * (n * k)) as Hstep by nia.
      assert (P * (P * (d * m)) ≤ (P + 1) * (k * (n * P))) as Hstep2 by nia.
      assert ((P + 1) * (k * (n * P)) ≤ (P + 1) * (k * (d * len * (P - 1))))
        as Hstep3
        by (apply Z.mul_le_mono_nonneg_l; [lia|];
            apply Z.mul_le_mono_nonneg_l; lia).
      assert (0 < k * (d * len)) as Hkdl by nia.
      assert ((P * P * d) * m < (P * P * d) * (k * len)) as Hfin by nia.
      apply (Z.mul_lt_mono_pos_l (P * P * d)); [nia | exact Hfin].
    + (* subnormal range: the step is [2 ^ -1074] *)
      assert (2 ^ 53 ≤ 2 ^ (- e)) as Hbig by (apply Z.pow_le_mono_r; lia).
      set (k := 2 ^ (- e)) in *. clearbody k.
      set (P := 2 ^ 53) in *. set (H := 2 ^ 52) in *. clearbody P H.
      assert (0 < P) as HP0 by lia.
      assert (2 * (P * (d * m)) ≤ 2 * (P * (n * k)) + P * d) as Hstep by nia.
      assert (k * (n * P) ≤ k * (d * len * (P - 1))) as Hstep2
        by (apply Z.mul_le_mono_nonneg_l; lia).
      assert (P * d ≤ k * len * d) as Hstep3 by nia.
      assert ((2 * P * d) * m < (2 * P * d) * (k * len)) as Hfin by nia.
      apply (Z.mul_lt_mono_pos_l (2 * P * d)); [nia | exact Hfin].
Qed.

(** A double below 1 is at most [1 - 2 ^ -53]. *)
Lemma unit_double_below (r : Q) :
  unit_double r →
  0 ≤ Qnum r ∧ Qnum r * 2 ^ 53 ≤ Zpos (Qden r) * (2 ^ 53 - 1).
Proof.
  intros ((m & e & Hm & He & Hval) & H0 & H1).
  unfold Qle in H0. unfold Qlt in H1. unfold Qeq, value, pow2 in Hval.
  cbn [mantissa exponent] in Hval. simpl in H0, H1.
  set (N := Qnum r) in *. set (D := Zpos (Qden r)) in *.
  assert (0 < D) as HD by (subst D; lia). clearbody N D.
  split; [lia|].
  destruct (Z.leb_spec 0 e) as [Hpos|Hneg]; simpl in Hval.
  - (* an integer below 1 is 0 *)
    change (Z.pos (1 * 1)) with 1 in Hval.
    set (X := m * 2 ^ e) in *. clearbody X.
    assert (X = 0) as -> by nia. lia.
  - assert (0 < 2 ^ (- e)) as HK by (apply Z.pow_pos_nonneg; lia).
    change (Z.pos (1 * Z.to_pos (2 ^ (- e))))
      with (Z.pos (Z.to_pos (2 ^ (- e)))) in Hval.
    rewrite Z2Pos.id in Hval by done.
    assert (0 < 2 ^ 53) as HP0 by reflexivity.
    rewrite Z.mul_1_r in Hval.
    destruct (Z.le_gt_cases (- e) 53) as [Hfine|Hcoarse].
    + assert (2 ^ 53 = 2 ^ (- e) * 2 ^ (53 + e)) as HPK
        by (rewrite <- Z.pow_add_r by lia; f_equal; lia).
      assert (0 < 2 ^ (53 + e)) by (apply Z.pow_pos_nonneg; lia).
      set (P := 2 ^ 53) in *.
      set (K := 2 ^ (- e)) in *. set (J := 2 ^ (53 + e)) in *.
      clearbody P K J.
      assert (N * P = m * J * D) by nia.
      assert (m * J < P) by nia.
      nia.
    + assert (2 ^ (- e) = 2 ^ 54 * 2 ^ (- e - 54)) as HKP
        by (rewrite <- Z.pow_add_r by lia; f_equal; lia).
      assert (2 ^ 54 = 2 * 2 ^ 53) as H54 by reflexivity.
      assert (0 < 2 ^ (- e - 54)) by (apply Z.pow_pos_nonneg; lia).
      assert (m < 2 ^ 53) by lia.
      set (P := 2 ^ 53) in *. set (Q54 := 2 ^ 54) in *.
      set (K := 2 ^ (- e)) in *. set (J := 2 ^ (- e - 54)) in *.
      clearbody P Q54 K J.
      assert (m * D < P * D) as HmD by (apply Z.mul_lt_mono_pos_r; lia).
      assert (P * (2 * (N * J)) < P * D) as HPN by nia.
      apply Z.mul_lt_mono_pos_l in HPN; [|lia].
      assert (N ≤ N * J) by nia.
      nia.
Qed.

(** [Math.floor(r * len)] stays inside an array of [len] cells. *)
Lemma floor_multiply_range (r : Q) (len : Z) :
  unit_double r → 0 < len →
  0 ≤ floor (multiply r len) < len.
Proof.
  intros Hr Hlen. destruct (unit_double_below r Hr) as [Hn Hbelow].
  unfold multiply, round.
  destruct (Z.compare_spec (Qnum r * len) 0) as [Hz|Hneg|Hpos].
  - unfold floor. cbn [mantissa exponent]. rewrite Z.shiftl_0_l. lia.
  - nia.
  - apply floor_round_positive_range; [lia..|nia].
Qed.

Lemma half_is_unit_double : unit_double (1 # 2).
Proof.
  split; [|split; [discriminate | reflexivity]].
  exists 1, (-1). split; [reflexivity|]. split; [lia | reflexivity].
Qed.

(** The double nearest to 0.7, times 10: the exact product lies below 7
    and the double product is 7. *)
Example product_rounds_to_next_integer :
  (6305039478318694 * 10) / 9007199254740992 = 6
  ∧ floor (multiply (6305039478318694 # 9007199254740992) 10) = 7.
Proof. split; vm_compute; reflexivity. Qed.

(** [multiply] against the multiplication of the Standard Library's
    IEEE 754 model, at 53 bits of precision: 0.7 by 10, the largest double
    below 1 by 3, the least subnormal by 3. *)
Example multiply_as_SpecFloat :
  let same (x : double) (y : SpecFloat.spec_float) :=
    y = SpecFloat.S754_finite false (Z.to_pos (mantissa x)) (exponent x) in
  same (multiply (6305039478318694 # 9007199254740992) 10)
    (SpecFloat.SFmul 53 1024
       (SpecFloat.S754_finite false 6305039478318694 (-53))
       (SpecFloat.S754_finite false 5 1))
  ∧ same (multiply (9007199254740991 # 9007199254740992) 3)
      (SpecFloat.SFmul 53 1024
         (SpecFloat.S754_finite false 9007199254740991 (-53))
         (SpecFloat.S754_finite false 3 0))
  ∧ same (multiply (1 # Z.to_pos (2 ^ 1074)) 3)
      (SpecFloat.SFmul 53 1024
         (SpecFloat.S754_finite false 1 (-1074))
         (SpecFloat.S754_finite false 3 0)).
Proof. repeat split; vm_compute; reflexivity. Qed.

End Binary64Facts.

(** * Properties of the opener rotator *)

Section OpenerFacts.

Import Opener.

Variable random : nat → Q.

Implicit Types (bank : list string) (state cur : history) (w : world)
  (x : option string) (key : string).

(** A double of the unit interval indexes a cell of a non-empty array. *)
Lemma random_index_range (r : Q) (len : nat) :
  Binary64.unit_double r → (0 < len)%nat →
  0 ≤ random_index r len < Z.of_nat len.
Proof.
  intros Hr Hlen. unfold random_index.
  apply floor_multiply_range; [done | lia].
Qed.

Lemma cell_in_bank bank (i : Z) :
  0 ≤ i < Z.of_nat (length bank) → ∃ s, cell bank i = Some s ∧ s ∈ bank.
Proof.
  intros Hi. unfold cell. destruct (Z.ltb_spec i 0); [lia|].
  destruct (lookup_lt_is_Some_2 bank (Z.to_nat i)) as [s Hs]; [lia|].
  exists s. split; [done|]. by eapply list_elem_of_lookup_2.
Qed.

Lemma draw_in_bank bank (n : nat) :
  bank ≠ [] → Binary64.unit_double (random n) →
  ∃ s, draw random bank n = Some s ∧ s ∈ bank.
Proof.
  intros Hne Hr. apply cell_in_bank, random_index_range; [done|].
  destruct bank; [done | simpl; lia].
Qed.

Lemma slice0_take {A : Type} (xs : list A) (e : Z) :
  0 ≤ e → slice0 xs e = take (Z.to_nat e) xs.
Proof. intros He. unfold slice0. by destruct (Z.ltb_spec e 0); [lia|]. Qed.

Lemma slice0_length {A : Type} (xs : list A) (e : Z) :
  0 ≤ e → (length (slice0 xs e) ≤ Z.to_nat e)%nat.
Proof. intros He. rewrite slice0_take, length_take by done. lia. Qed.

(** The loop stops at the first draw outside the recency list, or after
    its last pass with one more draw. *)
Lemma attempts_stop (n : nat) key bank keepLast state w :
  ∃ j : nat,
    (j ≤ n)%nat
    ∧ (∀ i : nat, (i < j)%nat → draw random bank (drawn w + i) ∈ items state)
    ∧ ((j < n)%nat → draw random bank (drawn w + j) ∉ items state)
    ∧ attempts random n key bank keepLast state w
      = accept key keepLast state (draw random bank (drawn w + j))
          (World (OPENER_HISTORY w) (S (drawn w + j))).
Proof.
  revert w. induction n as [|n IH]; intros w.
  - exists 0%nat. rewrite Nat.add_0_r. repeat split; lia || done.
  - simpl. case_bool_decide as Hin.
    + destruct (IH (World (OPENER_HISTORY w) (S (drawn w))))
        as (j & Hj & Hbefore & Hat & Heq).
      simpl in *. exists (S j).
      replace (drawn w + S j)%nat with (S (drawn w) + j)%nat by lia.
      repeat split; [lia| |intros; apply Hat; lia|done].
      intros [|i] Hi; [by rewrite Nat.add_0_r|].
      replace (drawn w + S i)%nat with (S (drawn w) + i)%nat by lia.
      apply Hbefore. lia.
    + exists 0%nat. rewrite Nat.add_0_r. repeat split; lia || done.
Qed.

(** The [state] read back after the guard is never [undefined]. *)
Lemma pick_unfold mode ip bank keepLast now w :
  let key := history_key ip mode in
  let cur := OPENER_HISTORY w !! key in
  let state := state_in_effect cur now in
  pickNonRepeatingOpener random mode ip bank keepLast now w
  = Returns (attempts random ATTEMPTS key bank keepLast state
               (World (if expired cur now
                       then <[key := state]> (OPENER_HISTORY w)
                       else OPENER_HISTORY w) (drawn w))).
Proof.
  intros key cur state. unfold pickNonRepeatingOpener.
  fold key. fold cur. subst state. unfold state_in_effect, expired.
  destruct cur as [c|] eqn:Hk.
  - destruct (now >? resetAt c); [by rewrite lookup_insert_eq|].
    subst cur. by rewrite Hk.
  - by rewrite lookup_insert_eq.
Qed.

Lemma state_in_effect_stored cur now :
  now ≤ resetAt cur → state_in_effect (Some cur) now = cur.
Proof.
  intros Hle. unfold state_in_effect.
  by destruct (Z.gtb_spec now (resetAt cur)); [lia|].
Qed.

Lemma state_in_effect_expired cur now :
  now > resetAt cur → state_in_effect (Some cur) now = History [] (now + DAY_MS).
Proof.
  intros Hgt. unfold state_in_effect.
  by destruct (Z.gtb_spec now (resetAt cur)); [|lia].
Qed.

(** One call, summarised: it returns the draw the loop stopped at and
    rewrites the entry of its own key only. *)
Lemma pick_stop mode ip bank keepLast now w :
  let key := history_key ip mode in
  let state := state_in_effect (OPENER_HISTORY w !! key) now in
  ∃ j : nat,
    (j ≤ ATTEMPTS)%nat
    ∧ (∀ i : nat, (i < j)%nat → draw random bank (drawn w + i) ∈ items state)
    ∧ ((j < ATTEMPTS)%nat → draw random bank (drawn w + j) ∉ items state)
    ∧ pickNonRepeatingOpener random mode ip bank keepLast now w
      = Returns
          (draw random bank (drawn w + j),
           World
             (<[key := History
                         (slice0 (draw random bank (drawn w + j) :: items state) keepLast)
                         (resetAt state)]> (OPENER_HISTORY w))
             (S (drawn w + j))).
Proof.
  intros key state. rewrite pick_unfold. fold key. fold state.
  set (h1 := if expired _ _ then _ else _).
  destruct (attempts_stop ATTEMPTS key bank keepLast state (World h1 (drawn w)))
    as (j & Hj & Hbefore & Hat & Heq).
  exists j. simpl in *. repeat split; [done..|].
  rewrite Heq. unfold accept. simpl. do 3 f_equal.
  subst h1. destruct (expired _ _); by rewrite ?insert_insert_eq.
Qed.

(** Claim C2, as the code has it. When every one of the 12 passes of the
    loop drew an item of the recency list, the function draws once more,
    a 13th time, and it is this last draw (not the candidate of the 12th
    pass) that it prepends to the list and returns. *)
Theorem pick_exhausted_takes_new_draw mode ip bank keepLast now w :
  let key := history_key ip mode in
  let state := state_in_effect (OPENER_HISTORY w !! key) now in
  (∀ i : nat, (i < 12)%nat → draw random bank (drawn w + i) ∈ items state) →
  let fallback := draw random bank (drawn w + 12) in
  pickNonRepeatingOpener random mode ip bank keepLast now w
  = Returns
      (fallback,
       World
         (<[key := History (slice0 (fallback :: items state) keepLast)
                     (resetAt state)]> (OPENER_HISTORY w))
         (drawn w + 13)).
Proof.
  intros key state Hall fallback.
  destruct (pick_stop mode ip bank keepLast now w)
    as (j & Hj & _ & Hat & ->).
  fold key state in Hat |- *. unfold ATTEMPTS in *.
  destruct (decide (j = 12%nat)) as [->|Hne].
  - subst fallback. do 3 f_equal. lia.
  - destruct Hat; [lia|]. apply Hall. lia.
Qed.

(** Claim C7. For a non-empty bank and any stored history, with samples
    that are doubles of the unit interval, the call returns (no
    [TypeError]), what it returns is a string of the bank (the rounded
    product [sample * bank.length] never reaches [bank.length]), and it
    has drawn at least one and at most 13 samples: at most 12 passes of
    the loop and the fallback. *)
Theorem pick_returns_bank_member mode ip bank keepLast now w :
  bank ≠ [] →
  (∀ n, Binary64.unit_double (random n)) →
  ∃ s w',
    pickNonRepeatingOpener random mode ip bank keepLast now w
    = Returns (Some s, w')
    ∧ s ∈ bank
    ∧ (drawn w < drawn w' ≤ drawn w + ATTEMPTS + 1)%nat.
Proof.
  intros Hbank Hunit.
  destruct (pick_stop mode ip bank keepLast now w)
    as (j & Hj & _ & _ & ->).
  destruct (draw_in_bank bank (drawn w + j) Hbank) as (s & Hs & Hin);
    [apply Hunit|].
  rewrite Hs. eexists _, _. split; [done|]. split; [done|]. simpl. lia.
Qed.

(** Claim C8. With a cap [keepLast >= 0], a call keeps every stored
    recency list within the cap: the list of its own key becomes the
    returned item followed by the previous items, cut to [keepLast]
    entries (the oldest are dropped), and no other list changes. *)
Theorem pick_keeps_history_capped mode ip bank keepLast now w :
  keepLast >= 0 →
  (∀ k h, OPENER_HISTORY w !! k = Some h →
          (length (items h) ≤ Z.to_nat keepLast)%nat) →
  ∃ x w',
    pickNonRepeatingOpener random mode ip bank keepLast now w = Returns (x, w')
    ∧ (∀ k h, OPENER_HISTORY w' !! k = Some h →
              (length (items h) ≤ Z.to_nat keepLast)%nat)
    ∧ ∃ h', OPENER_HISTORY w' !! history_key ip mode = Some h'
            ∧ items h'
              = take (Z.to_nat keepLast)
                  (x :: items (state_in_effect
                                 (OPENER_HISTORY w !! history_key ip mode) now)).
Proof.
  intros Hcap Hinv.
  destruct (pick_stop mode ip bank keepLast now w)
    as (j & _ & _ & _ & ->).
  eexists _, _. split; [done|]. simpl. split.
  - intros k h. destruct (decide (history_key ip mode = k)) as [<-|Hne].
    + rewrite lookup_insert_eq. intros [= <-]. simpl.
      apply slice0_length. lia.
    + rewrite lookup_insert_ne by done. apply Hinv.
  - eexists. rewrite lookup_insert_eq. split; [done|]. simpl.
    apply slice0_take. lia.
Qed.

(** Claim C9. A call made strictly after the stored [resetAt] behaves as a
    call on an entry with an empty recency list and
    [resetAt = now + 24h]: the first draw is accepted whatever the old
    list held, so an item served just before the expiry can be served
    again at once. *)
Theorem pick_after_expiry_forgets mode ip bank keepLast now w cur :
  let key := history_key ip mode in
  OPENER_HISTORY w !! key = Some cur →
  now > resetAt cur →
  let x := draw random bank (drawn w) in
  pickNonRepeatingOpener random mode ip bank keepLast now w
  = Returns
      (x, World (<[key := History (slice0 [x] keepLast) (now + DAY_MS)]>
                   (OPENER_HISTORY w))
                (S (drawn w)))
  ∧ pickNonRepeatingOpener random mode ip bank keepLast now w
    = pickNonRepeatingOpener random mode ip bank keepLast now
        (World (<[key := History [] (now + DAY_MS)]> (OPENER_HISTORY w))
               (drawn w)).
Proof.
  intros key Hk Hgt x.
  assert (∀ w0,
    state_in_effect (OPENER_HISTORY w0 !! key) now = History [] (now + DAY_MS) →
    pickNonRepeatingOpener random mode ip bank keepLast now w0
    = Returns
        (draw random bank (drawn w0),
         World (<[key := History (slice0 [draw random bank (drawn w0)] keepLast)
                           (now + DAY_MS)]> (OPENER_HISTORY w0))
               (S (drawn w0)))) as Hempty.
  { intros w0 Hst.
    destruct (pick_stop mode ip bank keepLast now w0)
      as (j & _ & Hbefore & _ & ->).
    fold key in Hbefore |- *. rewrite Hst in Hbefore |- *. simpl in *.
    destruct j as [|j]; [by rewrite Nat.add_0_r|].
    specialize (Hbefore 0%nat ltac:(lia)). by apply elem_of_nil in Hbefore. }
  rewrite (Hempty w) by (rewrite Hk; by apply state_in_effect_expired).
  split; [done|].
  rewrite Hempty; simpl.
  - by rewrite insert_insert_eq.
  - rewrite lookup_insert_eq. apply state_in_effect_stored. simpl.
    unfold DAY_MS. lia.
Qed.

Lemma take_cons_take {A : Type} (k : nat) (a : A) (l : list A) :
  take k (a :: take k l) = take k (a :: l).
Proof.
  destruct k as [|k]; [done|]. simpl. f_equal.
  rewrite take_take. f_equal. lia.
Qed.




End OpenerFacts.

(** * The rotator on concrete inputs *)

Section OpenerScenarios.

Import Opener.

(** Claim C2 fails as stated. The list holds "A", the 12 passes all draw "A"
    and the 13th sample selects "B": the call returns "B", which is not the
    candidate of the 12th pass, and it has drawn 13 samples. *)
Lemma pick_exhausted_last_candidate_counterexample :
  let bank := ["A"; "B"] in
  let w := World {[ "x:morning" := History [Some "A"] 100 ]} 0 in
  (∀ i : nat, (i < 12)%nat → draw twelve_low bank (drawn w + i) ∈ [Some "A"])
  ∧ draw twelve_low bank (drawn w + 11) = Some "A"
  ∧ ∃ w', pickNonRepeatingOpener twelve_low morning "x" bank 20 50 w
          = Returns (Some "B", w')
          ∧ drawn w' = (drawn w + 13)%nat.
Proof.
  intros bank w. split; [|split].
  - intros i Hi.
    do 12 (destruct i as [|i]; [vm_compute; constructor|]). lia.
  - vm_compute. reflexivity.
  - eexists. split; [vm_compute; reflexivity | reflexivity].
Qed.

Lemma pick_exhausted_takes_new_draw_witness :
  let bank := ["A"; "B"] in
  let w := World {[ "x:morning" := History [Some "A"] 100 ]} 0 in
  let key := history_key "x" morning in
  let state := state_in_effect (OPENER_HISTORY w !! key) 50 in
  let fallback := draw twelve_low bank (drawn w + 12) in
  pickNonRepeatingOpener twelve_low morning "x" bank 20 50 w
  = Returns
      (fallback,
       World
         (<[key := History (slice0 (fallback :: items state) 20)
                     (resetAt state)]> (OPENER_HISTORY w))
         (drawn w + 13)).
Proof.
  apply (pick_exhausted_takes_new_draw twelve_low morning "x" ["A"; "B"] 20 50
           (World {[ "x:morning" := History [Some "A"] 100 ]} 0)).
  intros i Hi.
  do 12 (destruct i as [|i]; [vm_compute; constructor|]). lia.
Defined.



Lemma pick_returns_bank_member_witness :
  ∃ s w',
    pickNonRepeatingOpener (constant_source (1 # 2)) evening "198.51.100.4"
      ["A"; "B"] 20 50
      (World {[ "198.51.100.4:evening" := History [Some "A"; Some "B"] 100 ]} 7)
    = Returns (Some s, w')
    ∧ s ∈ ["A"; "B"]
    ∧ (7 < drawn w' ≤ 7 + ATTEMPTS + 1)%nat.
Proof.
  apply (pick_returns_bank_member (constant_source (1 # 2)) evening
           "198.51.100.4" ["A"; "B"] 20 50
           (World {[ "198.51.100.4:evening" := History [Some "A"; Some "B"] 100 ]} 7)).
  - discriminate.
  - intros n. apply half_is_unit_double.
Defined.

(** A bank of one string whose only item is already listed: the call
    still returns it. *)
Example single_item_bank_repeats :
  ∃ w',
    pickNonRepeatingOpener (constant_source 0) bedtime "x" ["A"] 20 50
      (World {[ "x:bedtime" := History [Some "A"] 100 ]} 0)
    = Returns (Some "A", w')
    ∧ drawn w' = 13%nat.
Proof. eexists. split; [vm_compute; reflexivity | reflexivity]. Qed.

Lemma pick_keeps_history_capped_witness :
  let w := World {[ "x:morning" := History [Some "A"; Some "B"] 100 ]} 0 in
  ∃ x w',
    pickNonRepeatingOpener (constant_source (3 # 4)) morning "x"
      ["A"; "B"; "C"] 2 50 w = Returns (x, w')
    ∧ (∀ k h, OPENER_HISTORY w' !! k = Some h →
              (length (items h) ≤ Z.to_nat 2)%nat)
    ∧ ∃ h', OPENER_HISTORY w' !! history_key "x" morning = Some h'
            ∧ items h'
              = take (Z.to_nat 2)
                  (x :: items (state_in_effect
                                 (OPENER_HISTORY w !! history_key "x" morning) 50)).
Proof.
  apply (pick_keeps_history_capped (constant_source (3 # 4)) morning "x"
           ["A"; "B"; "C"] 2 50
           (World {[ "x:morning" := History [Some "A"; Some "B"] 100 ]} 0)).
  - lia.
  - intros k h Hk. simpl in Hk.
    apply lookup_singleton_Some in Hk as [_ <-]. simpl. lia.
Defined.

Example cap_two_drops_oldest :
  ∃ w',
    pickNonRepeatingOpener (constant_source (3 # 4)) morning "x"
      ["A"; "B"; "C"] 2 50
      (World {[ "x:morning" := History [Some "A"; Some "B"] 100 ]} 0)
    = Returns (Some "C", w')
    ∧ items <$> (OPENER_HISTORY w' !! "x:morning") = Some [Some "C"; Some "A"].
Proof. eexists. split; [vm_compute; reflexivity | reflexivity]. Qed.

Lemma pick_after_expiry_forgets_witness :
  let w := World {[ "x:morning" := History [Some "A"] 100 ]} 1 in
  let key := history_key "x" morning in
  let x := draw (constant_source 0) ["A"; "B"] (drawn w) in
  pickNonRepeatingOpener (constant_source 0) morning "x" ["A"; "B"] 20 101 w
  = Returns
      (x, World (<[key := History (slice0 [x] 20) (101 + DAY_MS)]>
                   (OPENER_HISTORY w))
                (S (drawn w)))
  ∧ pickNonRepeatingOpener (constant_source 0) morning "x" ["A"; "B"] 20 101 w
    = pickNonRepeatingOpener (constant_source 0) morning "x" ["A"; "B"] 20 101
        (World (<[key := History [] (101 + DAY_MS)]> (OPENER_HISTORY w))
               (drawn w)).
Proof.
  apply (pick_after_expiry_forgets (constant_source 0) morning "x" ["A"; "B"]
           20 101 (World {[ "x:morning" := History [Some "A"] 100 ]} 1)
           (History [Some "A"] 100)).
  - reflexivity.
  - simpl. lia.
Defined.

(** Served at the start of a window, and again by the first call after the
    window has closed. *)
Example served_again_after_a_day :
  ∃ w',
    picks (constant_source 0) morning "x" ["A"; "B"] 20
      [0; 0 + DAY_MS + 1] (World ∅ 0)
    = Returns ([(0%nat, Some "A"); (1%nat, Some "A")], w').
Proof. eexists. vm_compute. reflexivity. Qed.

End OpenerScenarios.

(** * Further properties of the rate limiter *)

Section RateLimitTraffic.

Import RateLimit Traffic.

Implicit Types (key : string) (bucket : gmap string entry) (cur : entry).

Lemma allowed_cons v vs :
  allowed (v :: vs) = ((if ok v then 1 else 0) + allowed vs)%nat.
Proof.
  unfold allowed. rewrite filter_cons.
  destruct (ok v); by case_decide.
Qed.

Lemma run_same_key_cons key limit windowMs t times bucket :
  run (same_key_calls key limit windowMs (t :: times)) bucket
  = let r := rateLimitOk key limit windowMs t bucket in
    (r.1 :: (run (same_key_calls key limit windowMs times) r.2).1,
     (run (same_key_calls key limit windowMs times) r.2).2).
Proof. unfold same_key_calls. simpl map. by rewrite run_cons. Qed.

(** Three cases of one call on a stored entry. *)
Lemma rateLimitOk_cases key limit windowMs now bucket c r :
  bucket !! key = Some (Entry c r) →
  (now > r
   ∧ rateLimitOk key limit windowMs now bucket
     = (Verdict true (limit - 1), <[key := Entry 1 (now + windowMs)]> bucket))
  ∨ (now ≤ r ∧ c < limit
     ∧ rateLimitOk key limit windowMs now bucket
       = (Verdict true (limit - (c + 1)), <[key := Entry (c + 1) r]> bucket))
  ∨ (now ≤ r ∧ limit ≤ c
     ∧ rateLimitOk key limit windowMs now bucket = (Verdict false 0, bucket)).
Proof.
  intros Hk. destruct (decide (now > r)) as [Hgt|Hle].
  - left. split; [done|]. apply (rateLimitOk_expired _ _ _ _ _ _ Hk).
    simpl. lia.
  - right. destruct (decide (c < limit)) as [Hroom|Hfull].
    + left. repeat split; [lia|done|].
      by rewrite (rateLimitOk_room _ _ _ _ _ _ Hk) by (simpl; lia).
    + right. repeat split; [lia..|].
      by rewrite (rateLimitOk_full _ _ _ _ _ _ Hk) by (simpl; lia).
Qed.

(** From an entry with [c] slots used and window end [r], calls no later
    than [T] are let through at most [L - c] times in the open window and
    [L] times per later window. *)
Lemma allowed_from_entry key (L w T : Z) (times : list Z) :
  1 ≤ L → 0 ≤ w →
  ∀ bucket c r,
    bucket !! key = Some (Entry c r) → c ≤ L →
    Forall (λ t, t ≤ T) times →
    Z.of_nat (allowed (run (same_key_calls key L w times) bucket).1) * (w + 1)
    ≤ (L - c) * (w + 1) + L * Z.max 0 (T - r + w).
Proof.
  intros HL Hw. induction times as [|t times IH]; intros bucket c r Hk Hc Hall.
  { pose proof (Z.le_max_l 0 (T - r + w)). cbn. nia. }
  apply Forall_cons in Hall as [Ht Hall].
  rewrite run_same_key_cons. cbn zeta. cbn [fst snd]. rewrite allowed_cons.
  pose proof (Z.le_max_l 0 (T - r + w)) as Hmax0.
  pose proof (Z.le_max_r 0 (T - r + w)) as Hmax1.
  destruct (rateLimitOk_cases key L w t bucket c r Hk)
    as [(Hgt & ->) | [(Hle & Hroom & ->) | (Hle & Hfull & ->)]];
    cbn [fst snd ok].
  - specialize (IH (<[key := Entry 1 (t + w)]> bucket) 1 (t + w)
                  (lookup_insert_eq _ _ _) HL Hall).
    replace (T - (t + w) + w) with (T - t) in IH by lia. nia.
  - specialize (IH (<[key := Entry (c + 1) r]> bucket) (c + 1) r
                  (lookup_insert_eq _ _ _) ltac:(lia) Hall).
    nia.
  - specialize (IH bucket c r Hk Hc Hall). nia.
Qed.

(** X1. Throughput of the fixed window. Calls with one key, a limit
    [L >= 1] and a window [w >= 0], the first at [t1] on a map without the
    key and none later than [T], are let through at most
    [L * (1 + (T - t1) / (w + 1))] times. *)
Theorem rateLimitOk_throughput key (L w t1 T : Z) (times : list Z) bucket :
  1 ≤ L → 0 ≤ w →
  bucket !! key = None →
  t1 ≤ T → Forall (λ t, t ≤ T) times →
  Z.of_nat (allowed (run (same_key_calls key L w (t1 :: times)) bucket).1)
    * (w + 1)
  ≤ L * (T - t1 + w + 1).
Proof.
  intros HL Hw Hk Ht1 Hall.
  rewrite run_same_key_cons. cbn zeta.
  rewrite (rateLimitOk_absent _ _ _ _ _ Hk). cbn [fst snd].
  rewrite allowed_cons. cbn [ok].
  pose proof (allowed_from_entry key L w T times HL Hw
                (<[key := Entry 1 (t1 + w)]> bucket) 1 (t1 + w)
                (lookup_insert_eq _ _ _) HL Hall) as Hrest.
  replace (T - (t1 + w) + w) with (T - t1) in Hrest by lia. nia.
Qed.

Lemma rateLimitOk_throughput_witness :
  Z.of_nat (allowed (run (same_key_calls "a" 2 10 [0; 0; 0; 11; 11; 11]) ∅).1)
    * (10 + 1)
  ≤ 2 * (11 - 0 + 10 + 1).
Proof.
  apply (rateLimitOk_throughput "a" 2 10 0 11 [0; 0; 11; 11; 11] ∅);
    [lia | lia | reflexivity | lia | repeat constructor; lia].
Defined.

Lemma run_app cs1 cs2 bucket :
  run (cs1 ++ cs2) bucket
  = ((run cs1 bucket).1 ++ (run cs2 (run cs1 bucket).2).1,
     (run cs2 (run cs1 bucket).2).2).
Proof.
  revert bucket. induction cs1 as [|c cs1 IH]; intros bucket.
  { simpl. by destruct (run cs2 bucket). }
  rewrite <- app_comm_cons, !run_cons. cbn zeta. cbn [fst snd].
  by rewrite IH.
Qed.

(** [n] calls inside an open window that still has [n] slots. *)
Lemma run_fills_window key (L w t : Z) (n : nat) :
  ∀ bucket c r,
    bucket !! key = Some (Entry c r) → t ≤ r → c + Z.of_nat n ≤ L →
    Forall (λ v, ok v = true)
      (run (same_key_calls key L w (replicate n t)) bucket).1
    ∧ (run (same_key_calls key L w (replicate n t)) bucket).2 !! key
      = Some (Entry (c + Z.of_nat n) r).
Proof.
  induction n as [|n IH]; intros bucket c r Hk Ht Hn.
  { simpl. split; [constructor|]. rewrite Hk. do 2 f_equal. lia. }
  cbn [replicate]. rewrite run_same_key_cons. cbn zeta.
  rewrite (rateLimitOk_room _ _ _ _ _ _ Hk) by (simpl; lia). cbn [fst snd].
  destruct (IH (<[key := Entry (c + 1) r]> bucket) (c + 1) r) as [Hok Hfin];
    [apply lookup_insert_eq | done | lia |].
  simpl in *. split; [by constructor|].
  rewrite Hfin. do 2 f_equal. lia.
Qed.

(** X2. The bound of the fixed window is reached: [L] calls at [t] and
    [L] calls at [t + w + 1], [2 L] calls in a span of [w + 1], are all let
    through. *)
Theorem rateLimitOk_boundary_burst key (L : nat) (w t : Z) bucket :
  (1 ≤ L)%nat → 0 ≤ w →
  bucket !! key = None →
  let times := replicate L t ++ replicate L (t + w + 1) in
  let verdicts := (run (same_key_calls key (Z.of_nat L) w times) bucket).1 in
  length verdicts = (2 * L)%nat
  ∧ Forall (λ v, ok v = true) verdicts.
Proof.
  intros HL Hw Hk times verdicts. subst times verdicts. split.
  { rewrite run_length. unfold same_key_calls.
    rewrite length_map, length_app, !length_replicate. lia. }
  destruct L as [|n]; [lia|].
  unfold same_key_calls. rewrite map_app.
  fold (same_key_calls key (Z.of_nat (S n)) w (replicate (S n) t)).
  fold (same_key_calls key (Z.of_nat (S n)) w (replicate (S n) (t + w + 1))).
  rewrite run_app. cbn [fst snd].
  assert (Forall (λ v, ok v = true)
            (run (same_key_calls key (Z.of_nat (S n)) w (replicate (S n) t))
               bucket).1
          ∧ (run (same_key_calls key (Z.of_nat (S n)) w (replicate (S n) t))
               bucket).2 !! key
            = Some (Entry (Z.of_nat (S n)) (t + w))) as [Hfirst Hmid].
  { cbn [replicate]. rewrite run_same_key_cons. cbn zeta.
    rewrite (rateLimitOk_absent _ _ _ _ _ Hk). cbn [fst snd].
    destruct (run_fills_window key (Z.of_nat (S n)) w t n
                (<[key := Entry 1 (t + w)]> bucket) 1 (t + w)) as [Hok Hfin];
      [apply lookup_insert_eq | lia | lia |].
    split; [by constructor|]. rewrite Hfin. do 2 f_equal. lia. }
  apply Forall_app. split; [done|].
  set (b1 := (run _ bucket).2) in *.
  cbn [replicate]. rewrite run_same_key_cons. cbn zeta.
  rewrite (rateLimitOk_expired _ _ _ _ _ _ Hmid) by (simpl; lia).
  cbn [fst snd].
  destruct (run_fills_window key (Z.of_nat (S n)) w (t + w + 1) n
              (<[key := Entry 1 (t + w + 1 + w)]> b1) 1 (t + w + 1 + w))
    as [Hok _]; [apply lookup_insert_eq | lia | lia |].
  by constructor.
Qed.

Lemma rateLimitOk_boundary_burst_witness :
  let times := replicate 3 0 ++ replicate 3 (0 + 10 + 1) in
  let verdicts := (run (same_key_calls "a" (Z.of_nat 3) 10 times) ∅).1 in
  length verdicts = (2 * 3)%nat
  ∧ Forall (λ v, ok v = true) verdicts.
Proof.
  apply (rateLimitOk_boundary_burst "a" 3 10 0 ∅); [lia | lia | reflexivity].
Defined.

Lemma rateLimitOk_counts_within key (L w now : Z) bucket :
  1 ≤ L → counts_within L bucket →
  counts_within L (rateLimitOk key L w now bucket).2
  ∧ 0 ≤ remaining (rateLimitOk key L w now bucket).1 ≤ L - 1
  ∧ (ok (rateLimitOk key L w now bucket).1 = false →
     remaining (rateLimitOk key L w now bucket).1 = 0)
  ∧ (ok (rateLimitOk key L w now bucket).1 = true →
     ∃ e, (rateLimitOk key L w now bucket).2 !! key = Some e
          ∧ count e + remaining (rateLimitOk key L w now bucket).1 = L).
Proof.
  intros HL Hinv.
  assert (∀ e, 1 ≤ count e ≤ L →
               counts_within L (<[key := e]> bucket)) as Hins.
  { intros e He k e'. destruct (decide (key = k)) as [<-|Hne].
    - rewrite lookup_insert_eq. by intros [= <-].
    - rewrite lookup_insert_ne by done. apply Hinv. }
  destruct (bucket !! key) as [[c r]|] eqn:Hk.
  - pose proof (Hinv _ _ Hk) as Hc. simpl in Hc.
    destruct (rateLimitOk_cases key L w now bucket c r Hk)
      as [(Hgt & ->) | [(Hle & Hroom & ->) | (Hle & Hfull & ->)]];
      cbn [fst snd ok remaining].
    + split; [apply Hins; simpl; lia|]. split; [lia|]. split; [done|].
      intros _. eexists. rewrite lookup_insert_eq. split; [done|]. simpl. lia.
    + split; [apply Hins; simpl; lia|]. split; [lia|]. split; [done|].
      intros _. eexists. rewrite lookup_insert_eq. split; [done|]. simpl. lia.
    + split; [done|]. split; [lia|]. split; [done|]. done.
  - rewrite (rateLimitOk_absent _ _ _ _ _ Hk). cbn [fst snd ok remaining].
    split; [apply Hins; simpl; lia|]. split; [lia|]. split; [done|].
    intros _. eexists. rewrite lookup_insert_eq. split; [done|]. simpl. lia.
Qed.

(** X3. With one limit [L >= 1] for all calls, whatever their keys and
    instants, stored counts stay between 1 and [L], every verdict has
    [0 <= remaining <= L - 1], and a refusal reports [remaining = 0]. *)
Theorem run_counts_within (L : Z) (cs : list call) bucket :
  1 ≤ L →
  Forall (λ c, c_limit c = L) cs →
  counts_within L bucket →
  counts_within L (run cs bucket).2
  ∧ Forall (λ v, 0 ≤ remaining v ≤ L - 1 ∧ (ok v = false → remaining v = 0))
      (run cs bucket).1.
Proof.
  intros HL Hall. revert bucket.
  induction Hall as [|c cs Hc _ IH]; intros bucket Hinv.
  { split; [done | constructor]. }
  rewrite run_cons. cbn zeta. cbn [fst snd]. rewrite Hc.
  destruct (rateLimitOk_counts_within (c_key c) L (c_windowMs c) (c_now c)
              bucket HL Hinv) as (Hinv1 & Hrem & Hdeny & _).
  destruct (IH _ Hinv1) as [Hinv2 Hvs].
  split; [done|]. by constructor.
Qed.

Lemma run_counts_within_witness :
  counts_within 2
    (run [Call "a" 2 10 0; Call "b" 2 5 1; Call "a" 2 10 2; Call "a" 2 10 3]
       {[ "c" := Entry 2 7 ]}).2
  ∧ Forall (λ v, 0 ≤ remaining v ≤ 2 - 1 ∧ (ok v = false → remaining v = 0))
      (run [Call "a" 2 10 0; Call "b" 2 5 1; Call "a" 2 10 2; Call "a" 2 10 3]
         {[ "c" := Entry 2 7 ]}).1.
Proof.
  apply (run_counts_within 2
           [Call "a" 2 10 0; Call "b" 2 5 1; Call "a" 2 10 2; Call "a" 2 10 3]
           {[ "c" := Entry 2 7 ]}); [lia | repeat constructor |].
  intros k e Hk. apply lookup_singleton_Some in Hk as [_ <-]. simpl. lia.
Defined.

(** X4. After a call that is let through, the stored count and the reported
    [remaining] add up to the limit. *)
Theorem rateLimitOk_remaining_is_quota_left key (L w now : Z) bucket :
  1 ≤ L →
  counts_within L bucket →
  ok (rateLimitOk key L w now bucket).1 = true →
  ∃ e, (rateLimitOk key L w now bucket).2 !! key = Some e
       ∧ count e + remaining (rateLimitOk key L w now bucket).1 = L.
Proof.
  intros HL Hinv Hok.
  by destruct (rateLimitOk_counts_within key L w now bucket HL Hinv)
    as (_ & _ & _ & Hsum); apply Hsum.
Qed.

Lemma rateLimitOk_remaining_is_quota_left_witness :
  ∃ e, (rateLimitOk "a" 30 600000 50 {[ "a" := Entry 4 100 ]}).2 !! "a" = Some e
       ∧ count e + remaining (rateLimitOk "a" 30 600000 50 {[ "a" := Entry 4 100 ]}).1
         = 30.
Proof.
  apply (rateLimitOk_remaining_is_quota_left "a" 30 600000 50
           {[ "a" := Entry 4 100 ]}); [lia | | reflexivity].
  intros k e Hk. apply lookup_singleton_Some in Hk as [_ <-]. simpl. lia.
Defined.

(** X5. Nothing is evicted: after any calls the map holds exactly the keys
    it held before and the keys of the calls. *)
Theorem run_keeps_every_key (cs : list call) bucket :
  dom (run cs bucket).2 = list_to_set (c_key <$> cs) ∪ dom bucket.
Proof.
  revert bucket. induction cs as [|c cs IH]; intros bucket.
  { simpl. by rewrite (left_id_L ∅ (∪)). }
  rewrite run_cons. cbn zeta. cbn [fst snd]. rewrite IH.
  assert (dom (rateLimitOk (c_key c) (c_limit c) (c_windowMs c) (c_now c)
                 bucket).2 = {[c_key c]} ∪ dom bucket) as ->.
  { destruct (bucket !! c_key c) as [[n r]|] eqn:Hk.
    - destruct (rateLimitOk_cases (c_key c) (c_limit c) (c_windowMs c)
                  (c_now c) bucket n r Hk)
        as [(_ & ->) | [(_ & _ & ->) | (_ & _ & ->)]];
        cbn [snd]; rewrite ?dom_insert_L; [done..|].
      apply (elem_of_dom_2 (D := gset string)) in Hk.
      symmetry. apply subseteq_union_1_L. by apply singleton_subseteq_l.
    - rewrite (rateLimitOk_absent _ _ _ _ _ Hk). cbn [snd].
      by rewrite dom_insert_L. }
  rewrite fmap_cons, list_to_set_cons.
  by rewrite (comm_L (∪) {[c_key c]} (list_to_set _)), <- (assoc_L (∪)).
Qed.

(** How far a window that holds [c] fills up under [n] more calls. *)
Lemma run_window_entry key (L w : Z) (times : list Z) :
  ∀ bucket c r,
    bucket !! key = Some (Entry c r) →
    Forall (λ t, t ≤ r) times →
    (run (same_key_calls key L w times) bucket).2 !! key
    = Some (Entry (Z.max c (Z.min (c + Z.of_nat (length times)) L)) r).
Proof.
  induction times as [|t times IH]; intros bucket c r Hk Hall.
  { simpl. rewrite Hk. do 2 f_equal. lia. }
  apply Forall_cons in Hall as [Ht Hall].
  rewrite run_same_key_cons. cbn zeta. cbn [fst snd].
  destruct (rateLimitOk_cases key L w t bucket c r Hk)
    as [(Hgt & _) | [(_ & Hroom & ->) | (_ & Hfull & ->)]]; [lia|..];
    cbn [snd].
  - rewrite (IH _ (c + 1) r) by (done || apply lookup_insert_eq).
    do 2 f_equal. simpl. lia.
  - rewrite (IH _ c r) by done. do 2 f_equal. simpl. lia.
Qed.

(** X6. The window is fixed: it ends [w] after the call that opened it
    however many calls arrive in it, and once it has seen [n] calls it
    holds the count [min n (max L 1)]. *)
Theorem rateLimitOk_window_is_fixed key (L w t1 : Z) (times : list Z) bucket :
  bucket !! key = None →
  Forall (λ t, t ≤ t1 + w) times →
  (run (same_key_calls key L w (t1 :: times)) bucket).2 !! key
  = Some (Entry (Z.min (Z.of_nat (S (length times))) (Z.max L 1)) (t1 + w)).
Proof.
  intros Hk Hall. rewrite run_same_key_cons. cbn zeta.
  rewrite (rateLimitOk_absent _ _ _ _ _ Hk). cbn [fst snd].
  rewrite (run_window_entry key L w times _ 1 (t1 + w))
    by (done || apply lookup_insert_eq).
  do 2 f_equal. lia.
Qed.

Lemma rateLimitOk_window_is_fixed_witness :
  (run (same_key_calls "a" 3 600000 [1000; 1001; 5000; 601000; 1002]) ∅).2 !! "a"
  = Some (Entry (Z.min (Z.of_nat (S (length [1001; 5000; 601000; 1002])))
                   (Z.max 3 1))
            (1000 + 600000)).
Proof.
  apply (rateLimitOk_window_is_fixed "a" 3 600000 1000
           [1001; 5000; 601000; 1002] ∅); [reflexivity|].
  repeat constructor; lia.
Defined.

(** X7. In any interleaving of calls, the verdicts given to key [k] are the
    verdicts the calls with key [k] get when they are made alone. *)
Theorem run_verdicts_by_key (k : string) (cs : list call) bucket :
  verdicts_of k cs (run cs bucket).1
  = (run (filter (λ c, c_key c = k) cs) bucket).1.
Proof.
  revert bucket. induction cs as [|c cs IH]; intros bucket; [done|].
  rewrite run_cons. cbn zeta. cbn [fst snd].
  unfold verdicts_of in *. cbn [zip zip_with].
  rewrite filter_cons. cbn [fst]. rewrite (filter_cons _ c).
  destruct (decide (c_key c = k)) as [Hc|Hne].
  - rewrite fmap_cons. cbn [snd]. rewrite IH, run_cons. cbn zeta.
    by cbn [fst snd].
  - rewrite IH.
    apply (run_local k); [apply Forall_forall; by intros ? [? _]%list_elem_of_filter|].
    by apply rateLimitOk_frame.
Qed.

End RateLimitTraffic.

(** * Further properties of the opener rotator *)

Section OpenerMore.

Import Opener Text.
Import Stdlib.Strings.Ascii.

Variable random : nat → Q.

Implicit Types (bank : list string) (state cur : history) (w : world)
  (x : option string) (key : string).

Lemma append_cons (c : ascii) (s t : string) :
  String c s +:+ t = String c (s +:+ t).
Proof. reflexivity. Qed.

Lemma append_empty (t : string) : EmptyString +:+ t = t.
Proof. reflexivity. Qed.

Lemma has_colon_separator (s t : string) : has_colon (s +:+ ":" +:+ t) = true.
Proof.
  induction s as [|c s IH].
  - by rewrite append_empty, append_cons.
  - rewrite append_cons. simpl. rewrite IH. by destruct (Ascii.eqb c ":").
Qed.

(** The part before the last separator is determined by the whole. *)
Lemma separator_split (s s' t t' : string) :
  has_colon t = false → has_colon t' = false →
  s +:+ ":" +:+ t = s' +:+ ":" +:+ t' → s = s' ∧ t = t'.
Proof.
  intros Ht Ht'. revert s'. induction s as [|c s IH]; intros [|c' s'] Heq.
  - change (String ":" t = String ":" t') in Heq. by injection Heq as ->.
  - change (String ":" t = String c' (s' +:+ ":" +:+ t')) in Heq.
    injection Heq as _ Heq. exfalso.
    rewrite Heq, has_colon_separator in Ht. done.
  - change (String c (s +:+ ":" +:+ t) = String ":" t') in Heq.
    injection Heq as _ Heq. exfalso.
    rewrite <- Heq, has_colon_separator in Ht'. done.
  - change (String c (s +:+ ":" +:+ t) = String c' (s' +:+ ":" +:+ t')) in Heq.
    injection Heq as -> Heq.
    destruct (IH _ Heq) as [-> ->]. done.
Qed.

(** X8. Two (client, mode) pairs share a history key only if they are the
    same pair, colons in the client string included. *)
Theorem history_key_inj (ip ip' : string) (mode mode' : DayMode) :
  history_key ip mode = history_key ip' mode' → ip = ip' ∧ mode = mode'.
Proof.
  unfold history_key. intros Heq.
  apply separator_split in Heq as [-> Hm];
    [|by destruct mode | by destruct mode'].
  split; [done|]. by destruct mode, mode'.
Qed.

Lemma history_key_inj_witness :
  "::1" = "::1" ∧ evening = evening.
Proof. apply (history_key_inj "::1" "::1" evening evening). reflexivity. Defined.

(** X9. The call returns the first of its 12 loop draws that is not in the
    recency list, has then consumed the samples up to that draw and no
    more, and stores the cut list under its key. *)
Theorem pick_returns_first_unlisted_draw mode ip bank keepLast now w (j : nat) :
  let key := history_key ip mode in
  let state := state_in_effect (OPENER_HISTORY w !! key) now in
  (j < 12)%nat →
  (∀ i : nat, (i < j)%nat → draw random bank (drawn w + i) ∈ items state) →
  draw random bank (drawn w + j) ∉ items state →
  pickNonRepeatingOpener random mode ip bank keepLast now w
  = Returns
      (draw random bank (drawn w + j),
       World
         (<[key := History
                     (slice0 (draw random bank (drawn w + j) :: items state)
                        keepLast)
                     (resetAt state)]> (OPENER_HISTORY w))
         (S (drawn w + j))).
Proof.
  intros key state Hj Hlisted Hfree.
  destruct (pick_stop random mode ip bank keepLast now w)
    as (j0 & Hj0 & Hbefore & Hat & ->).
  fold key state in Hbefore, Hat |- *. unfold ATTEMPTS in *.
  destruct (lt_eq_lt_dec j0 j) as [[Hlt | ->] | Hgt]; [| done |].
  - destruct Hat; [lia|]. by apply Hlisted.
  - destruct Hfree. by apply Hbefore.
Qed.

(** X10. An empty bank does not make the call throw: it returns
    [undefined], whatever the samples. *)
Theorem pick_empty_bank_returns_undefined mode ip keepLast now w :
  ∃ w', pickNonRepeatingOpener random mode ip [] keepLast now w
        = Returns (None, w')
        ∧ (drawn w < drawn w' ≤ drawn w + 13)%nat.
Proof.
  destruct (pick_stop random mode ip [] keepLast now w)
    as (j & Hj & _ & _ & ->).
  assert (draw random [] (drawn w + j) = None) as ->.
  { unfold draw, cell. by destruct (_ <? 0). }
  eexists. split; [done|]. unfold ATTEMPTS in *. simpl. lia.
Qed.

(** X11. When every string of the bank is in the recency list and the
    samples are doubles of the unit interval, the call spends all 13
    samples and returns a listed string again. *)
Theorem pick_saturated_repeats mode ip bank keepLast now w :
  let state :=
    state_in_effect (OPENER_HISTORY w !! history_key ip mode) now in
  bank ≠ [] →
  (∀ n, Binary64.unit_double (random n)) →
  (∀ s, s ∈ bank → Some s ∈ items state) →
  ∃ s w',
    pickNonRepeatingOpener random mode ip bank keepLast now w
    = Returns (Some s, w')
    ∧ s ∈ bank
    ∧ Some s ∈ items state
    ∧ drawn w' = (drawn w + 13)%nat.
Proof.
  intros state Hbank Hunit Hsat.
  destruct (pick_stop random mode ip bank keepLast now w)
    as (j & Hj & _ & Hat & ->).
  fold state in Hat. unfold ATTEMPTS in *.
  destruct (draw_in_bank random bank (drawn w + j) Hbank) as (s & Hs & Hin);
    [apply Hunit|].
  rewrite Hs in *. exists s. eexists. split; [done|].
  split; [done|]. split; [by apply Hsat|]. simpl.
  destruct (decide (j = 12%nat)) as [->|Hne]; [lia|].
  destruct Hat; [lia | by apply Hsat].
Qed.

(** X12. A call that needed at most 12 samples returned an item that was
    not in the list; and if the list had no duplicate before such a call,
    it has none after. *)
Theorem pick_within_budget_keeps_distinct mode ip bank keepLast now w x w' :
  let key := history_key ip mode in
  let state := state_in_effect (OPENER_HISTORY w !! key) now in
  pickNonRepeatingOpener random mode ip bank keepLast now w = Returns (x, w') →
  (drawn w' ≤ drawn w + 12)%nat →
  (x ∉ items state)
  ∧ (NoDup (items state) →
     ∃ h', OPENER_HISTORY w' !! key = Some h' ∧ NoDup (items h')).
Proof.
  intros key state Hpick Hbudget.
  destruct (pick_stop random mode ip bank keepLast now w)
    as (j & Hj & _ & Hat & Heq).
  fold key state in Hat, Heq. rewrite Heq in Hpick.
  injection Hpick as <- <-. simpl in Hbudget. unfold ATTEMPTS in *.
  assert (draw random bank (drawn w + j) ∉ items state) as Hfree
    by (apply Hat; lia).
  split; [done|]. intros Hnd. eexists. simpl. rewrite lookup_insert_eq.
  split; [done|]. simpl.
  assert (NoDup (draw random bank (drawn w + j) :: items state)) as Hnd'
    by by apply NoDup_cons.
  unfold slice0. destruct (keepLast <? 0);
    (eapply sublist_NoDup; [exact Hnd' | apply sublist_take]).
Qed.

(** Inside an open window the stored list is the cut list of what was
    returned, and no other key is written. *)
Lemma picks_in_window_history mode ip bank keepLast (r : Z) (times : list Z) :
  0 ≤ keepLast →
  ∀ w (past : list (option string)),
    OPENER_HISTORY w !! history_key ip mode
    = Some (History (take (Z.to_nat keepLast) past) r) →
    Forall (λ t, t ≤ r) times →
    ∃ served w',
      picks random mode ip bank keepLast times w = Returns (served, w')
      ∧ OPENER_HISTORY w' !! history_key ip mode
        = Some (History (take (Z.to_nat keepLast) (reverse served.*2 ++ past)) r)
      ∧ ∀ k, k ≠ history_key ip mode →
             OPENER_HISTORY w' !! k = OPENER_HISTORY w !! k.
Proof.
  intros Hcap. induction times as [|t times IH]; intros w past Hk Hall.
  { exists [], w. repeat split. by rewrite Hk. }
  apply Forall_cons in Hall as [Ht Hall]. cbn [picks].
  destruct (pick_stop random mode ip bank keepLast t w)
    as (j & _ & _ & _ & ->).
  rewrite Hk, state_in_effect_stored in * by done. simpl in *.
  set (x0 := draw random bank (drawn w + j)) in *.
  rewrite slice0_take, take_cons_take by done.
  match goal with
  | |- context [picks _ _ _ _ _ _ ?w1] =>
      destruct (IH w1 (x0 :: past)) as (served & w' & -> & Hfin & Hframe);
        [apply lookup_insert_eq | done |]
  end.
  eexists _, _. split; [done|]. simpl in *. split.
  - rewrite Hfin. by rewrite reverse_cons, <- app_assoc.
  - intros k Hne. rewrite Hframe by done. by rewrite lookup_insert_ne.
Qed.

(** X13. From the call that opens a window to its end, with a cap
    [keepLast >= 0], the stored list is exactly the [keepLast] most
    recently returned items, most recent first; the window still ends 24
    hours after it was opened, and the entries of all other keys are as
    they were. *)
Theorem picks_history_is_recent mode ip bank keepLast (t1 : Z) (times : list Z) w :
  0 ≤ keepLast →
  expired (OPENER_HISTORY w !! history_key ip mode) t1 = true →
  Forall (λ t, t ≤ t1 + DAY_MS) times →
  ∃ served w',
    picks random mode ip bank keepLast (t1 :: times) w = Returns (served, w')
    ∧ OPENER_HISTORY w' !! history_key ip mode
      = Some (History (take (Z.to_nat keepLast) (reverse served.*2))
                (t1 + DAY_MS))
    ∧ ∀ k, k ≠ history_key ip mode →
           OPENER_HISTORY w' !! k = OPENER_HISTORY w !! k.
Proof.
  intros Hcap Hexp Hall. cbn [picks].
  destruct (pick_stop random mode ip bank keepLast t1 w)
    as (j & _ & _ & _ & ->).
  assert (state_in_effect (OPENER_HISTORY w !! history_key ip mode) t1
          = History [] (t1 + DAY_MS)) as ->.
  { unfold state_in_effect, expired in *.
    destruct (OPENER_HISTORY w !! history_key ip mode) as [c|]; [|done].
    by rewrite Hexp. }
  simpl. set (x0 := draw random bank (drawn w + j)).
  rewrite slice0_take by done.
  match goal with
  | |- context [picks _ _ _ _ _ _ ?w1] =>
      destruct (picks_in_window_history mode ip bank keepLast (t1 + DAY_MS)
                  times Hcap w1 [x0]) as (served & w' & -> & Hfin & Hframe);
        [apply lookup_insert_eq | done |]
  end.
  eexists _, _. split; [done|]. simpl in *. split.
  - by rewrite Hfin, reverse_cons.
  - intros k Hne. rewrite Hframe by done. by rewrite lookup_insert_ne.
Qed.

End OpenerMore.

Section OpenerMoreScenarios.

Import Opener.

Lemma pick_returns_first_unlisted_draw_witness :
  let w := World {[ "x:morning" := History [Some "A"] 100 ]} 0 in
  let key := history_key "x" morning in
  let state := state_in_effect (OPENER_HISTORY w !! key) 50 in
  pickNonRepeatingOpener second_then_first morning "x" ["A"; "B"; "C"] 20 50 w
  = Returns
      (draw second_then_first ["A"; "B"; "C"] (drawn w + 1),
       World
         (<[key := History
                     (slice0 (draw second_then_first ["A"; "B"; "C"] (drawn w + 1)
                              :: items state) 20)
                     (resetAt state)]> (OPENER_HISTORY w))
         (S (drawn w + 1))).
Proof.
  apply (pick_returns_first_unlisted_draw second_then_first morning "x"
           ["A"; "B"; "C"] 20 50
           (World {[ "x:morning" := History [Some "A"] 100 ]} 0) 1).
  - lia.
  - intros i Hi. destruct i as [|i]; [vm_compute; constructor | lia].
  - vm_compute. intros Hin. inversion Hin as [|? ? ? Hnil]; inversion Hnil.
Defined.

Lemma pick_saturated_repeats_witness :
  let w := World {[ "x:morning" := History [Some "B"; Some "A"] 100 ]} 0 in
  let state :=
    state_in_effect (OPENER_HISTORY w !! history_key "x" morning) 50 in
  ∃ s w',
    pickNonRepeatingOpener (constant_source (1 # 2)) morning "x" ["A"; "B"] 20 50 w
    = Returns (Some s, w')
    ∧ s ∈ ["A"; "B"]
    ∧ Some s ∈ items state
    ∧ drawn w' = (drawn w + 13)%nat.
Proof.
  apply (pick_saturated_repeats (constant_source (1 # 2)) morning "x"
           ["A"; "B"] 20 50
           (World {[ "x:morning" := History [Some "B"; Some "A"] 100 ]} 0)).
  - discriminate.
  - intros n. apply half_is_unit_double.
  - intros s Hs. vm_compute.
    apply elem_of_cons in Hs as [->|Hs]; [by right; left|].
    apply elem_of_cons in Hs as [->|Hs]; [by left|].
    by apply elem_of_nil in Hs.
Defined.

Lemma pick_within_budget_keeps_distinct_witness :
  let w := World {[ "x:morning" := History [Some "A"] 100 ]} 0 in
  let key := history_key "x" morning in
  let state := state_in_effect (OPENER_HISTORY w !! key) 50 in
  (Some "B" ∉ items state)
  ∧ (NoDup (items state) →
     ∃ h',
       OPENER_HISTORY
         (World
            (<[key := History (slice0 (Some "B" :: items state) 20)
                        (resetAt state)]> (OPENER_HISTORY w)) 2)
       !! key = Some h'
       ∧ NoDup (items h')).
Proof.
  apply (pick_within_budget_keeps_distinct second_then_first morning "x"
           ["A"; "B"; "C"] 20 50
           (World {[ "x:morning" := History [Some "A"] 100 ]} 0)
           (Some "B")).
  - vm_compute. reflexivity.
  - simpl. lia.
Defined.

Lemma picks_history_is_recent_witness :
  ∃ served w',
    picks second_then_first morning "x" ["A"; "B"; "C"] 2 [0; 1; 2] (World ∅ 0)
    = Returns (served, w')
    ∧ OPENER_HISTORY w' !! history_key "x" morning
      = Some (History (take (Z.to_nat 2) (reverse served.*2)) (0 + DAY_MS))
    ∧ ∀ k, k ≠ history_key "x" morning →
           OPENER_HISTORY w' !! k = OPENER_HISTORY (World ∅ 0) !! k.
Proof.
  apply (picks_history_is_recent second_then_first morning "x" ["A"; "B"; "C"]
           2 0 [1; 2] (World ∅ 0)).
  - lia.
  - reflexivity.
  - repeat constructor; unfold DAY_MS; lia.
Defined.

End OpenerMoreScenarios.

(** * Properties of request normalisation and admission *)

Section RequestFacts.

Import RateLimit Opener Request Text Traffic.
Import Stdlib.Strings.Ascii.

Implicit Types (bucket : gmap string entry) (s t : string) (l : list N).

Lemma trimStart_head l u l' :
  trimStart l = u :: l' → is_white_space u = false.
Proof.
  induction l as [|v l IH]; [done|]. simpl.
  destruct (is_white_space v) eqn:Hv; [done|]. by intros [= <- _].
Qed.

Lemma trimEnd_head l u l' :
  trimEnd l = u :: l' → ∃ l0, l = u :: l0.
Proof.
  destruct l as [|v l]; [done|]. simpl.
  destruct (trimEnd l); [destruct (is_white_space v)|];
    intros [= <- _]; eauto.
Qed.

Lemma trim_head l u l' : trim l = u :: l' → is_white_space u = false.
Proof.
  unfold trim. intros Ht. apply trimEnd_head in Ht as [l0 Hl0].
  by eapply trimStart_head.
Qed.

(** X14. Whatever the body holds under [name], the name handed to the
    prompt has between 1 and 40 code units and does not begin with white
    space. *)
Theorem safeName_bounds (x : unknown) :
  (1 ≤ length (safeName x) ≤ 40)%nat
  ∧ ∃ u rest, safeName x = u :: rest ∧ is_white_space u = false.
Proof.
  unfold safeName. destruct (trimmed_or_empty x) as [|u n] eqn:Hn.
  { rewrite slice0_take by lia. split.
    - rewrite length_take. change (length (units "Friend")) with 6%nat. lia.
    - vm_compute. by eexists _, _. }
  assert (is_white_space u = false) as Hu.
  { destruct x; try done. simpl in Hn. by eapply trim_head. }
  rewrite slice0_take by lia. change (Z.to_nat 40) with 40%nat.
  split.
  - rewrite length_take. cbn [length]. lia.
  - by eexists _, _.
Qed.

(** X15. The two versions of [safeName] in the repository return the same
    string for every input. *)
Theorem safeName_versions_agree (x : unknown) :
  safeName_first x = safeName x.
Proof.
  unfold safeName_first, safeName.
  by destruct (trimmed_or_empty x).
Qed.

(** X16. [clampMode] reads back each mode from its own name, and answers
    anything but [morning] only on the exact name of the mode it returns. *)
Theorem clampMode_round_trip :
  (∀ m : DayMode, clampMode (JsString (units (mode_string m))) = m)
  ∧ ∀ x : unknown,
      clampMode x ≠ morning →
      x = JsString (units (mode_string (clampMode x))).
Proof.
  split; [by intros []|].
  intros x. unfold clampMode, strict_eq_literal.
  destruct x as [| | | |u|]; try done.
  repeat case_bool_decide; subst; done.
Qed.

Lemma or_else_default (a : option string) (d : string) :
  d ≠ EmptyString →
  ∃ s, or_else a (Some d) = Some s ∧ s ≠ EmptyString.
Proof. intros Hd. destruct a as [[|c s]|]; simpl; eauto. Qed.

(** X17. The client key is never the empty string, whatever the two
    headers hold. *)
Theorem client_ip_nonempty (xf xr : header) : client_ip xf xr ≠ EmptyString.
Proof.
  unfold client_ip.
  by destruct (or_else_default
                 (or_else ((header_trim ∘ before_comma) <$> first_value xf)
                    (first_value xr)) "unknown") as (s & -> & Hs).
Qed.

Lemma before_comma_no_comma s : has_comma (before_comma s) = false.
Proof.
  induction s as [|c s IH]; [done|]. simpl.
  destruct (Ascii.eqb c ",") eqn:Hc; [done|]. simpl. by rewrite Hc.
Qed.

Lemma header_trimStart_no_comma s :
  has_comma s = false → has_comma (header_trimStart s) = false.
Proof.
  induction s as [|c s IH]; [done|]. simpl.
  intros [Hc Hs]%orb_false_iff.
  destruct (header_white_space c); [by apply IH|]. simpl. by rewrite Hc, Hs.
Qed.

Lemma header_trimEnd_no_comma s :
  has_comma s = false → has_comma (header_trimEnd s) = false.
Proof.
  induction s as [|c s IH]; [done|]. simpl.
  intros [Hc Hs]%orb_false_iff. specialize (IH Hs).
  destruct (header_trimEnd s) as [|d t].
  - destruct (header_white_space c); [done|]. simpl. by rewrite Hc.
  - simpl in *. by rewrite Hc, IH.
Qed.

Lemma header_trimEnd_idem s :
  header_trimEnd (header_trimEnd s) = header_trimEnd s.
Proof.
  induction s as [|c s IH]; [done|]. simpl.
  destruct (header_trimEnd s) as [|d t] eqn:Ht.
  - destruct (header_white_space c) eqn:Hc; [done|]. simpl. by rewrite Hc.
  - cbn [header_trimEnd]. cbn [header_trimEnd] in IH. by rewrite IH.
Qed.

Lemma header_trimStart_head s c t :
  header_trimStart s = String c t → header_white_space c = false.
Proof.
  induction s as [|d s IH]; [done|]. simpl.
  destruct (header_white_space d) eqn:Hd; [done|]. by intros [= <- _].
Qed.

Lemma header_trimStart_fixed s :
  (∀ c t, s = String c t → header_white_space c = false) →
  header_trimStart s = s.
Proof.
  destruct s as [|c s]; [done|]. intros Hhead. simpl.
  by rewrite (Hhead c s eq_refl).
Qed.

Lemma header_trimEnd_head s c t :
  header_trimEnd s = String c t → ∃ t0, s = String c t0.
Proof.
  destruct s as [|d s]; [done|]. simpl.
  destruct (header_trimEnd s); [destruct (header_white_space d)|];
    intros [= <- _]; eauto.
Qed.

Lemma header_trim_idem s : header_trim (header_trim s) = header_trim s.
Proof.
  unfold header_trim.
  rewrite (header_trimStart_fixed (header_trimEnd (header_trimStart s))).
  - apply header_trimEnd_idem.
  - intros c t Heq. apply header_trimEnd_head in Heq as [t0 Heq].
    by eapply header_trimStart_head.
Qed.

(** X18. When the first [x-forwarded-for] value has a non-blank first
    element, that element, trimmed, is the client key: it holds no comma
    and trimming it again changes nothing; [x-real-ip] is not looked
    at. *)
Theorem client_ip_from_forwarded (xf xr : header) s :
  first_value xf = Some s →
  header_trim (before_comma s) ≠ EmptyString →
  client_ip xf xr = header_trim (before_comma s)
  ∧ has_comma (client_ip xf xr) = false
  ∧ header_trim (client_ip xf xr) = client_ip xf xr.
Proof.
  intros Hxf Hne.
  assert (client_ip xf xr = header_trim (before_comma s)) as ->.
  { unfold client_ip. rewrite Hxf. simpl.
    by destruct (header_trim (before_comma s)). }
  split; [done|]. split.
  - apply header_trimEnd_no_comma, header_trimStart_no_comma,
      before_comma_no_comma.
  - apply header_trim_idem.
Qed.

Lemma client_ip_from_forwarded_witness :
  client_ip (ManyValues [" 203.0.113.7 , 10.0.0.1"; "10.0.0.2"]) (OneValue "10.9.9.9")
  = header_trim (before_comma " 203.0.113.7 , 10.0.0.1")
  ∧ has_comma (client_ip (ManyValues [" 203.0.113.7 , 10.0.0.1"; "10.0.0.2"])
                 (OneValue "10.9.9.9")) = false
  ∧ header_trim (client_ip (ManyValues [" 203.0.113.7 , 10.0.0.1"; "10.0.0.2"])
                   (OneValue "10.9.9.9"))
    = client_ip (ManyValues [" 203.0.113.7 , 10.0.0.1"; "10.0.0.2"])
        (OneValue "10.9.9.9").
Proof.
  apply (client_ip_from_forwarded
           (ManyValues [" 203.0.113.7 , 10.0.0.1"; "10.0.0.2"])
           (OneValue "10.9.9.9") " 203.0.113.7 , 10.0.0.1");
    [reflexivity | vm_compute; discriminate].
Defined.

Example forwarded_first_element :
  client_ip (ManyValues [" 203.0.113.7 , 10.0.0.1"; "10.0.0.2"]) (OneValue "10.9.9.9")
  = "203.0.113.7".
Proof. vm_compute. reflexivity. Qed.

Lemma rateLimitOk_refusal_keeps_bucket key (limit windowMs now : Z) bucket :
  ok (rateLimitOk key limit windowMs now bucket).1 = false →
  (rateLimitOk key limit windowMs now bucket).2 = bucket.
Proof.
  destruct (bucket !! key) as [[c r]|] eqn:Hk.
  - by destruct (rateLimitOk_cases key limit windowMs now bucket c r Hk)
      as [(_ & ->) | [(_ & _ & ->) | (_ & _ & ->)]].
  - by rewrite (rateLimitOk_absent _ _ _ _ _ Hk).
Qed.

(** X19. A request the first stage answers itself leaves the limiter's
    map as it was, so it uses up no quota, and the status tells the cause:
    200 only for [OPTIONS]; 405 only for a method that is neither
    [OPTIONS] nor [POST]; 500 only for a [POST] without API key; 429 only
    for a [POST] with API key that the limiter refused. *)
Theorem handler_rejection_keeps_bucket (method apiKey : option string)
    (xf xr : header) (now : Z) bucket (status : Z) :
  (handler_admission method apiKey xf xr now bucket).1 = Responds status →
  (handler_admission method apiKey xf xr now bucket).2 = bucket
  ∧ ((status = 200 ∧ method = Some "OPTIONS")
     ∨ (status = 405 ∧ method ≠ Some "OPTIONS" ∧ method ≠ Some "POST")
     ∨ (status = 500 ∧ method = Some "POST" ∧ truthy apiKey = false)
     ∨ (status = 429 ∧ method = Some "POST" ∧ truthy apiKey = true
        ∧ ok (rateLimitOk (client_ip xf xr) 30 (10 * 60 * 1000) now bucket).1
          = false)).
Proof.
  unfold handler_admission.
  case_bool_decide as Hopt.
  { intros [= <-]. split; [done|]. by left. }
  case_bool_decide as Hpost; simpl.
  2: { intros [= <-]. split; [done|]. right; left. done. }
  destruct (truthy apiKey) eqn:Hkey; simpl.
  2: { intros [= <-]. split; [done|]. right; right; left. done. }
  destruct (ok _) eqn:Hok; simpl; [done|].
  intros [= <-]. split; [by apply rateLimitOk_refusal_keeps_bucket|].
  do 3 right. done.
Qed.

Lemma handler_rejection_keeps_bucket_witness :
  (handler_admission (Some "POST") (Some "sk-test") (OneValue "203.0.113.7")
     NoHeader 5000 {[ "203.0.113.7" := Entry 30 9000 ]}).2
  = {[ "203.0.113.7" := Entry 30 9000 ]}
  ∧ ((429 = 200 ∧ Some "POST" = Some "OPTIONS")
     ∨ (429 = 405 ∧ Some "POST" ≠ Some "OPTIONS" ∧ Some "POST" ≠ Some "POST")
     ∨ (429 = 500 ∧ Some "POST" = Some "POST" ∧ truthy (Some "sk-test") = false)
     ∨ (429 = 429 ∧ Some "POST" = Some "POST" ∧ truthy (Some "sk-test") = true
        ∧ ok (rateLimitOk (client_ip (OneValue "203.0.113.7") NoHeader) 30
                (10 * 60 * 1000) 5000 {[ "203.0.113.7" := Entry 30 9000 ]}).1
          = false)).
Proof.
  apply (handler_rejection_keeps_bucket (Some "POST") (Some "sk-test")
           (OneValue "203.0.113.7") NoHeader 5000
           {[ "203.0.113.7" := Entry 30 9000 ]} 429).
  vm_compute. reflexivity.
Defined.

(** The statuses of the four ways out, one request each. *)
Example first_stage_statuses :
  (handler_admission (Some "OPTIONS") None NoHeader NoHeader 0 ∅).1
  = Responds 200
  ∧ (handler_admission (Some "GET") (Some "sk-test") NoHeader NoHeader 0 ∅).1
    = Responds 405
  ∧ (handler_admission None (Some "sk-test") NoHeader NoHeader 0 ∅).1
    = Responds 405
  ∧ (handler_admission (Some "POST") (Some "") NoHeader NoHeader 0 ∅).1
    = Responds 500
  ∧ (handler_admission (Some "POST") None NoHeader NoHeader 0 ∅).1
    = Responds 500
  ∧ (handler_admission (Some "POST") (Some "sk-test") NoHeader NoHeader 5000
       {[ "unknown" := Entry 30 9000 ]}).1
    = Responds 429.
Proof. repeat split; vm_compute; reflexivity. Qed.

Lemma handler_admission_post (apiKey : option string) (xf xr : header)
    (now : Z) bucket :
  truthy apiKey = true →
  handler_admission (Some "POST") apiKey xf xr now bucket
  = let c := Call (client_ip xf xr) 30 (10 * 60 * 1000) now in
    let rl := rateLimitOk (c_key c) (c_limit c) (c_windowMs c) (c_now c) bucket in
    (admission_of c rl.1, rl.2).
Proof.
  intros Hkey. unfold handler_admission, admission_of. rewrite Hkey. simpl.
  by destruct (ok _).
Qed.

Lemma handler_admission_other (method apiKey : option string) (xf xr : header)
    (now : Z) bucket :
  method ≠ Some "POST" →
  (handler_admission method apiKey xf xr now bucket).2 = bucket.
Proof.
  intros Hm. unfold handler_admission.
  case_bool_decide; [done|]. by case_bool_decide.
Qed.

(** X20. With an API key configured, the limiter sees the [POST] requests
    and nothing else: after any list of requests its map is the one left
    by [rateLimitOk(ip, 30, 600000)] run over the [POST] requests in
    order, and each [POST] is let on or answered 429 according to its
    verdict. *)
Theorem serve_is_run_of_posts (apiKey : option string) (reqs : list request)
    bucket :
  truthy apiKey = true →
  (serve apiKey reqs bucket).2 = (run (limiter_calls reqs) bucket).2
  ∧ post_admissions reqs (serve apiKey reqs bucket).1
    = uncurry admission_of
      <$> zip (limiter_calls reqs) (run (limiter_calls reqs) bucket).1.
Proof.
  intros Hkey. revert bucket. induction reqs as [|q reqs IH]; intros bucket.
  { done. }
  cbn [serve]. cbn zeta. cbn [fst snd].
  unfold limiter_calls, post_admissions in *.
  cbn [zip zip_with]. rewrite !filter_cons. cbn [fst].
  destruct (decide (r_method q = Some "POST")) as [Hm|Hm].
  - rewrite Hm, (handler_admission_post _ _ _ _ _ Hkey). cbn zeta.
    cbn [fst snd c_key c_limit c_windowMs c_now].
    rewrite !fmap_cons, run_cons. cbn zeta.
    cbn [fst snd c_key c_limit c_windowMs c_now zip zip_with].
    destruct (IH (rateLimitOk (client_ip (r_forwarded q) (r_real_ip q)) 30
                    (10 * 60 * 1000) (r_now q) bucket).2) as [-> ->].
    by rewrite fmap_cons.
  - rewrite (handler_admission_other _ _ _ _ _ _ Hm). apply IH.
Qed.

Lemma serve_is_run_of_posts_witness :
  let reqs :=
    [Request (Some "OPTIONS") (OneValue "203.0.113.7") NoHeader 0;
     Request (Some "POST") (OneValue "203.0.113.7") NoHeader 1;
     Request (Some "GET") (OneValue "203.0.113.7") NoHeader 2;
     Request (Some "POST") (OneValue "203.0.113.7, 10.0.0.1") NoHeader 3] in
  (serve (Some "sk-test") reqs ∅).2 = (run (limiter_calls reqs) ∅).2
  ∧ post_admissions reqs (serve (Some "sk-test") reqs ∅).1
    = uncurry admission_of
      <$> zip (limiter_calls reqs) (run (limiter_calls reqs) ∅).1.
Proof.
  apply (serve_is_run_of_posts (Some "sk-test")
           [Request (Some "OPTIONS") (OneValue "203.0.113.7") NoHeader 0;
            Request (Some "POST") (OneValue "203.0.113.7") NoHeader 1;
            Request (Some "GET") (OneValue "203.0.113.7") NoHeader 2;
            Request (Some "POST") (OneValue "203.0.113.7, 10.0.0.1") NoHeader 3]
           ∅).
  reflexivity.
Defined.

Example preflight_and_get_use_no_quota :
  (serve (Some "sk-test")
     [Request (Some "OPTIONS") (OneValue "203.0.113.7") NoHeader 0;
      Request (Some "POST") (OneValue "203.0.113.7") NoHeader 1;
      Request (Some "GET") (OneValue "203.0.113.7") NoHeader 2;
      Request (Some "POST") (OneValue "203.0.113.7, 10.0.0.1") NoHeader 3] ∅).1
  = [Responds 200; Proceeds "203.0.113.7" 29; Responds 405;
     Proceeds "203.0.113.7" 28].
Proof. vm_compute. reflexivity. Qed.

End RequestFacts.
